(** * A real-time broadcast relay: the message store, its socket handlers
      and the pages that talk to them

    Shallow embedding of [server.js]: the module-level array [messages], the
    [connection] callback and the [new_message] and [disconnect] listeners
    it installs on every socket; and of the page scripts [public/app.js],
    [public/client.js] and [public/submit.js]: their form listeners, their
    socket listeners and the helpers these call.

    What belongs to the program is embedded from its text.  What belongs to
    its runtime is modelled as far as the program uses it:
    - JavaScript values as they arrive through the JSON transport
      ([JsValue]), [ToBoolean] ([truthy]) and [String.prototype.trim];
    - the socket.io server as the set of connected socket ids, with
      [socket.emit] sending to one socket and [io.emit] to each connected
      one; every send is recorded in the [outbox];
    - [Date.now()] as a reading supplied with the submission;
    - [console.log] as a list of lines;
    - the page as the elements the scripts look up, the pending timers and
      what the scripts emit ([Browser]). *)

From stdpp Require Import base decidable list sorting gmap strings pretty.
From Stdlib Require Import ZArith.

Local Open Scope Z_scope.
Set Warnings "-register-all".

(** ** JavaScript values *)

Module Js.

(** A JavaScript string is a sequence of UTF-16 code units. *)
Definition code_unit : Type := N.
Definition js_string : Type := list code_unit.

(** The code units of a literal made of ASCII characters. *)
Definition of_ascii (s : string) : js_string :=
  (λ a, Ascii.N_of_ascii a) <$> String.list_ascii_of_string s.

(** Values a payload can take once decoded from JSON.  Numbers that cross
    JSON are finite; they are represented by integers, which is all
    [Date.now()] produces and all that [ToBoolean] needs to tell apart. *)
Inductive JsValue : Type :=
  | JsUndefined
  | JsNull
  | JsBool (b : bool)
  | JsNumber (n : Z)
  | JsString (s : js_string)
  | JsArray (items : list JsValue)
  | JsObject (fields : list (js_string * JsValue)).

(** [ToBoolean]: what [if (v)] and [v && ...] test. *)
Definition truthy (v : JsValue) : bool :=
  match v with
  | JsUndefined | JsNull => false
  | JsBool b => b
  | JsNumber n => negb (n =? 0)
  | JsString s => match s with [] => false | _ :: _ => true end
  | JsArray _ | JsObject _ => true
  end.

Definition is_string (v : JsValue) : bool :=
  match v with JsString _ => true | _ => false end.

Definition is_number (v : JsValue) : bool :=
  match v with JsNumber _ => true | _ => false end.

(** ECMAScript [WhiteSpace] and [LineTerminator] code points, the ones
    [trim] strips; all of them are single code units. *)
Definition is_white_space (c : code_unit) : bool :=
  ((9 <=? c) && (c <=? 13)         (* TAB, LF, VT, FF, CR *)
   || (c =? 32)                    (* SPACE *)
   || (c =? 160)                   (* NO-BREAK SPACE *)
   || (c =? 5760)                  (* OGHAM SPACE MARK *)
   || (8192 <=? c) && (c <=? 8202) (* EN QUAD .. HAIR SPACE *)
   || (c =? 8232) || (c =? 8233)   (* LINE and PARAGRAPH SEPARATOR *)
   || (c =? 8239)                  (* NARROW NO-BREAK SPACE *)
   || (c =? 8287)                  (* MEDIUM MATHEMATICAL SPACE *)
   || (c =? 12288)                 (* IDEOGRAPHIC SPACE *)
   || (c =? 65279))%N.             (* ZERO WIDTH NO-BREAK SPACE *)

Fixpoint trim_start (s : js_string) : js_string :=
  match s with
  | [] => []
  | c :: rest => if is_white_space c then trim_start rest else s
  end.

Definition trim_end (s : js_string) : js_string :=
  reverse (trim_start (reverse s)).

(** [String.prototype.trim]. *)
Definition trim (s : js_string) : js_string := trim_end (trim_start s).

End Js.

Export Js.

(** ** The server's state *)

(** [socket.id]. *)
Definition SocketId : Type := string.

(** The object literal [{ id: Date.now(), text: msg }].  Both fields hold
    whatever value the expression produced. *)
Record Message : Type := { id : JsValue; text : JsValue }.

(** Events the server sends. *)
Inductive ServerEvent : Type :=
  | load_messages (backlog : list Message)
  | display_message (messageData : Message).

(** The three [console.log] calls. *)
Inductive LogLine : Type :=
  | UserConnected (socket : SocketId)
  | MessageReceived (msg : JsValue)
  | UserDisconnected (socket : SocketId).

Record State : Type := {
  messages : list Message;                  (* [let messages = []] *)
  sockets : gset SocketId;                  (* sockets socket.io holds connected *)
  outbox : list (SocketId * ServerEvent);   (* every send, oldest first *)
  console : list LogLine                    (* every line logged, oldest first *)
}.

Definition initial : State :=
  {| messages := []; sockets := ∅; outbox := []; console := [] |}.

Definition set_messages (f : list Message → list Message) (st : State) : State :=
  {| messages := f (messages st); sockets := sockets st;
     outbox := outbox st; console := console st |}.

Definition set_sockets (f : gset SocketId → gset SocketId) (st : State) : State :=
  {| messages := messages st; sockets := f (sockets st);
     outbox := outbox st; console := console st |}.

Definition set_outbox
    (f : list (SocketId * ServerEvent) → list (SocketId * ServerEvent))
    (st : State) : State :=
  {| messages := messages st; sockets := sockets st;
     outbox := f (outbox st); console := console st |}.

Definition set_console (f : list LogLine → list LogLine) (st : State) : State :=
  {| messages := messages st; sockets := sockets st;
     outbox := outbox st; console := f (console st) |}.

(** ** Handlers: state passing with exceptions *)

Inductive Error : Type := TypeError.

(** How a piece of code ends: normally with a value, or by throwing.  Either
    way the state is the one reached when it ended. *)
Inductive Completion (A : Type) : Type :=
  | Normal (a : A) (st : State)
  | Throw (e : Error) (st : State).
Arguments Normal {A} a st.
Arguments Throw {A} e st.

Definition Handler (A : Type) : Type := State → Completion A.

Definition state_of {A} (c : Completion A) : State :=
  match c with Normal _ st | Throw _ st => st end.

Definition returns {A} (c : Completion A) : bool :=
  match c with Normal _ _ => true | Throw _ _ => false end.

#[global] Instance Handler_ret : MRet Handler := λ A a st, Normal a st.

#[global] Instance Handler_bind : MBind Handler := λ A B k m st,
  match m st with
  | Normal a st' => k a st'
  | Throw e st' => Throw e st'
  end.

Definition throw {A} (e : Error) : Handler A := λ st, Throw e st.

(** [console.log(...)] *)
Definition console_log (line : LogLine) : Handler () :=
  λ st, Normal () (set_console (λ out, out ++ [line]) st).

(** Reading the variable [messages]. *)
Definition get_messages : Handler (list Message) :=
  λ st, Normal (messages st) st.

(** [messages.push(m)] *)
Definition push (m : Message) : Handler () :=
  λ st, Normal () (set_messages (λ ms, ms ++ [m]) st).

(** [socket.emit(ev)]: one send, to that socket. *)
Definition socket_emit (socket : SocketId) (ev : ServerEvent) : Handler () :=
  λ st, Normal () (set_outbox (λ out, out ++ [(socket, ev)]) st).

(** [io.emit(ev)]: one send to each socket connected at the time. *)
Definition io_emit (ev : ServerEvent) : Handler () :=
  λ st, Normal ()
    (set_outbox (λ out, out ++ ((λ c, (c, ev)) <$> elements (sockets st))) st).

(** [v.trim()]: the string method on a string.  [undefined] and [null] have
    no properties; a boolean, a number, an array or an object decoded from
    JSON has no callable [trim]: the call throws a [TypeError]. *)
Definition call_trim (v : JsValue) : Handler js_string :=
  match v with
  | JsString s => mret (trim s)
  | _ => throw TypeError
  end.

(** ** The program *)

(** [msg && msg.trim().length > 0], as the [if] tests it. *)
Definition validation (msg : JsValue) : Handler bool :=
  if truthy msg then
    trimmed ← call_trim msg;
    mret (bool_decide (0 < length trimmed)%nat)
  else mret false.

(** The callback of [io.on('connection', ...)], up to the listeners it
    installs, which are the next two definitions. *)
Definition on_connection (socket : SocketId) : Handler () :=
  console_log (UserConnected socket);;
  backlog ← get_messages;
  socket_emit socket (load_messages backlog).

(** The listener of [new_message]; [now] is what [Date.now()] returns when
    the listener runs. *)
Definition on_new_message (now : Z) (msg : JsValue) : Handler () :=
  console_log (MessageReceived msg);;
  ok ← validation msg;
  if ok : bool then
    let messageData := {| id := JsNumber now; text := msg |} in
    push messageData;;
    io_emit (display_message messageData)
  else mret ().

(** The listener of [disconnect]. *)
Definition on_disconnect (socket : SocketId) : Handler () :=
  console_log (UserDisconnected socket).

(** ** socket.io's dispatch *)

(** What reaches the server. *)
Inductive Event : Type :=
  | Connect (socket : SocketId)
  | Submit (socket : SocketId) (now : Z) (msg : JsValue)
  | Disconnect (socket : SocketId).

(** A socket joins the connected ones, then the connection callback runs. *)
Definition onConnect (socket : SocketId) : Handler () :=
  (λ st, Normal () (set_sockets (λ cs, {[socket]} ∪ cs) st));;
  on_connection socket.

Definition onSubmit (now : Z) (msg : JsValue) : Handler () :=
  on_new_message now msg.

(** A socket leaves the connected ones, then its listener runs. *)
Definition onDisconnect (socket : SocketId) : Handler () :=
  (λ st, Normal () (set_sockets (λ cs, cs ∖ {[socket]}) st));;
  on_disconnect socket.

(** The handler an event is for. *)
Definition handler (e : Event) : Handler () :=
  match e with
  | Connect socket => onConnect socket
  | Submit _ now msg => onSubmit now msg
  | Disconnect socket => onDisconnect socket
  end.

(** Socket ids are fresh, and only a connected socket has listeners. *)
Definition deliverable (e : Event) (st : State) : bool :=
  match e with
  | Connect socket => bool_decide (socket ∉ sockets st)
  | Submit socket _ _ | Disconnect socket => bool_decide (socket ∈ sockets st)
  end.

(** An event that is not deliverable reaches no handler. *)
Definition dispatch (e : Event) : Handler () :=
  λ st, if deliverable e st then handler e st else Normal () st.

(** The state after a sequence of events.  An exception that escapes a
    listener leaves the state where the listener stopped. *)
Definition run (events : list Event) (st : State) : State :=
  foldl (λ s e, state_of (dispatch e s)) st events.

(** ** Observations *)

(** What one invocation sent: the part of the outbox it added. *)
Definition sent_by {A} (h : Handler A) (st : State) : list (SocketId * ServerEvent) :=
  drop (length (outbox st)) (outbox (state_of (h st))).

(** The events a client received among some sends, in order. *)
Definition received (client : SocketId) (sends : list (SocketId * ServerEvent))
    : list ServerEvent :=
  (filter (λ p, p.1 = client) sends).*2.

(** The readings of the clock that come with the submissions, in order. *)
Definition clock (events : list Event) : list Z :=
  omap (λ e, match e with Submit _ now _ => Some now | _ => None end) events.

(** [text.trim().length > 0] on a stored record. *)
Definition nonblank_text (m : Message) : bool :=
  match text m with
  | JsString s => bool_decide (0 < length (trim s))%nat
  | _ => false
  end.

(** The sends of [io.emit] for a record. *)
Definition broadcast (m : Message) (st : State) : list (SocketId * ServerEvent) :=
  (λ c, (c, display_message m)) <$> elements (sockets st).

(** The state once the listener has logged the payload. *)
Definition logged (msg : JsValue) (st : State) : State :=
  set_console (λ out, out ++ [MessageReceived msg]) st.

(** The state once a record has been pushed and broadcast. *)
Definition stored (m : Message) (st : State) : State :=
  set_outbox (λ out, out ++ broadcast m st) (set_messages (λ ms, ms ++ [m]) st).

(** Whether the check lets a payload through; it reads nothing of the state. *)
Definition accepts (msg : JsValue) : bool :=
  match validation msg initial with
  | Normal ok _ => ok
  | Throw _ _ => false
  end.

(** Whether a list of received events is empty or begins with a backlog. *)
Definition backlog_first (evs : list ServerEvent) : bool :=
  match evs with
  | [] | load_messages _ :: _ => true
  | display_message _ :: _ => false
  end.

(** ** The browser side: the page and its scripts *)

(** The page scripts [public/app.js], [public/client.js] and
    [public/submit.js] run in a browser.  The page is modelled by what the
    scripts read and write: the three elements they look up, the pending
    timers, the payloads handed to [socket.emit('new_message', ...)], the
    calls of [window.scrollTo] and the console. *)
Module Browser.

(** An [li] the scripts create, by the two values they give it: the one
    assigned to [textContent] and the one passed to
    [setAttribute('data-id', ...)].  The DOM keeps their string forms; for a
    string that is the string itself. *)
Record Item : Type := { textContent : JsValue; data_id : JsValue }.

Inductive ConsoleCall : Type :=
  | LogCall (args : list JsValue)      (* [console.log(...)] *)
  | ErrorCall (args : list JsValue).   (* [console.error(...)] *)

(** The two callbacks the scripts hand to [setTimeout]. *)
Inductive Callback : Type :=
  | ClearIfUnchanged (text : js_string)
      (* [if (statusDisplay.textContent === text) statusDisplay.textContent = ''] *)
  | ClearAlways.
      (* [status.textContent = ''] *)

Record Timer : Type := { callback : Callback; delay : Z }.

(** The element [message-input]. *)
Record Input : Type := { value : js_string; focused : bool }.

Record Page : Type := {
  messages_el : option (list Item);   (* children of [messages]; [None]: no such element *)
  form_el : bool;                     (* whether [message-form] exists *)
  input_el : option Input;            (* [message-input] *)
  status_el : option js_string;       (* [textContent] of [status] *)
  timers : list Timer;                (* pending, oldest first *)
  emitted : list JsValue;             (* payloads of [new_message], oldest first *)
  scrolls : nat;                      (* calls of [window.scrollTo] *)
  console_calls : list ConsoleCall    (* oldest first *)
}.

Definition set_messages_el (f : option (list Item) → option (list Item)) (p : Page) : Page :=
  {| messages_el := f (messages_el p); form_el := form_el p; input_el := input_el p;
     status_el := status_el p; timers := timers p; emitted := emitted p;
     scrolls := scrolls p; console_calls := console_calls p |}.

Definition set_input_el (f : option Input → option Input) (p : Page) : Page :=
  {| messages_el := messages_el p; form_el := form_el p; input_el := f (input_el p);
     status_el := status_el p; timers := timers p; emitted := emitted p;
     scrolls := scrolls p; console_calls := console_calls p |}.

Definition set_status_el (f : option js_string → option js_string) (p : Page) : Page :=
  {| messages_el := messages_el p; form_el := form_el p; input_el := input_el p;
     status_el := f (status_el p); timers := timers p; emitted := emitted p;
     scrolls := scrolls p; console_calls := console_calls p |}.

Definition set_timers (f : list Timer → list Timer) (p : Page) : Page :=
  {| messages_el := messages_el p; form_el := form_el p; input_el := input_el p;
     status_el := status_el p; timers := f (timers p); emitted := emitted p;
     scrolls := scrolls p; console_calls := console_calls p |}.

Definition set_emitted (f : list JsValue → list JsValue) (p : Page) : Page :=
  {| messages_el := messages_el p; form_el := form_el p; input_el := input_el p;
     status_el := status_el p; timers := timers p; emitted := f (emitted p);
     scrolls := scrolls p; console_calls := console_calls p |}.

Definition set_scrolls (f : nat → nat) (p : Page) : Page :=
  {| messages_el := messages_el p; form_el := form_el p; input_el := input_el p;
     status_el := status_el p; timers := timers p; emitted := emitted p;
     scrolls := f (scrolls p); console_calls := console_calls p |}.

Definition set_console_calls (f : list ConsoleCall → list ConsoleCall) (p : Page) : Page :=
  {| messages_el := messages_el p; form_el := form_el p; input_el := input_el p;
     status_el := status_el p; timers := timers p; emitted := emitted p;
     scrolls := scrolls p; console_calls := f (console_calls p) |}.

(** Page code: state passing with exceptions, as for the server. *)
Inductive Outcome (A : Type) : Type :=
  | Done (a : A) (p : Page)
  | Raised (e : Error) (p : Page).
Arguments Done {A} a p.
Arguments Raised {A} e p.

Definition Script (A : Type) : Type := Page → Outcome A.

Definition page_of {A} (o : Outcome A) : Page :=
  match o with Done _ p | Raised _ p => p end.

Definition completes {A} (o : Outcome A) : bool :=
  match o with Done _ _ => true | Raised _ _ => false end.

#[global] Instance Script_ret : MRet Script := λ A a p, Done a p.

#[global] Instance Script_bind : MBind Script := λ A B k m p,
  match m p with
  | Done a p' => k a p'
  | Raised e p' => Raised e p'
  end.

Definition raise {A} (e : Error) : Script A := λ p, Raised e p.

Definition console_call (c : ConsoleCall) : Script () :=
  λ p, Done () (set_console_calls (λ cs, cs ++ [c]) p).

(** [window.scrollTo(0, document.body.scrollHeight)] *)
Definition scrollTo : Script () :=
  λ p, Done () (set_scrolls S p).

(** An element variable as a condition: [null] is falsy, an element truthy. *)
Definition present {A} (element : option A) : bool :=
  match element with Some _ => true | None => false end.

Definition has_messages_el : Script bool :=
  λ p, Done (present (messages_el p)) p.

(** [messagesList.appendChild(item)]; on [null] a TypeError. *)
Definition appendChild (item : Item) : Script () :=
  λ p, match messages_el p with
       | Some _ => Done () (set_messages_el (fmap (λ items, items ++ [item])) p)
       | None => Raised TypeError p
       end.

(** [messagesList.innerHTML = '']; on [null] a TypeError. *)
Definition clear_messages_el : Script () :=
  λ p, match messages_el p with
       | Some _ => Done () (set_messages_el (λ _, Some []) p)
       | None => Raised TypeError p
       end.

Definition has_status_el : Script bool :=
  λ p, Done (present (status_el p)) p.

(** Reading [textContent] of the status element; on [null] a TypeError. *)
Definition get_status : Script js_string :=
  λ p, match status_el p with
       | Some text => Done text p
       | None => Raised TypeError p
       end.

(** Assigning [textContent] of the status element; on [null] a TypeError. *)
Definition set_status (text : js_string) : Script () :=
  λ p, match status_el p with
       | Some _ => Done () (set_status_el (λ _, Some text) p)
       | None => Raised TypeError p
       end.

(** Reading [value] of the input; on [null] a TypeError. *)
Definition get_input_value : Script js_string :=
  λ p, match input_el p with
       | Some input => Done (value input) p
       | None => Raised TypeError p
       end.

(** Assigning [value] of the input; on [null] a TypeError. *)
Definition set_input_value (v : js_string) : Script () :=
  λ p, match input_el p with
       | Some input =>
           Done () (set_input_el (λ _, Some {| value := v; focused := focused input |}) p)
       | None => Raised TypeError p
       end.

(** [messageInput.focus()]; on [null] a TypeError. *)
Definition focus_input : Script () :=
  λ p, match input_el p with
       | Some input =>
           Done () (set_input_el (λ _, Some {| value := value input; focused := true |}) p)
       | None => Raised TypeError p
       end.

(** [setTimeout(callback, delay)] *)
Definition setTimeout (cb : Callback) (ms : Z) : Script () :=
  λ p, Done () (set_timers (λ ts, ts ++ [{| callback := cb; delay := ms |}]) p).

(** [socket.emit('new_message', payload)] *)
Definition emit_new_message (payload : JsValue) : Script () :=
  λ p, Done () (set_emitted (λ out, out ++ [payload]) p).

(** The own property [key] of an object; its keys are distinct. *)
Fixpoint own_property (key : js_string) (fields : list (js_string * JsValue)) : JsValue :=
  match fields with
  | [] => JsUndefined
  | (k, v) :: rest => if decide (k = key) then v else own_property key rest
  end.

(** [v.key] for the keys [text] and [id], which no prototype defines:
    [undefined] and [null] have no properties, an object has its own, any
    other value has none of that name. *)
Definition member (key : js_string) (v : JsValue) : Script JsValue :=
  match v with
  | JsUndefined | JsNull => raise TypeError
  | JsObject fields => mret (own_property key fields)
  | _ => mret JsUndefined
  end.

(** [items.forEach(f)] on an array: in order, until a call throws. *)
Fixpoint forEach (f : JsValue → Script ()) (items : list JsValue) : Script () :=
  match items with
  | [] => mret ()
  | item :: rest => f item;; forEach f rest
  end.

(** What a callback does when its timer fires. *)
Definition run_callback (cb : Callback) : Script () :=
  match cb with
  | ClearIfUnchanged text =>
      shown ← get_status;
      if decide (shown = text) then set_status [] else mret ()
  | ClearAlways => set_status []
  end.

(** The pending timer at position [i] fires: it is no longer pending and
    its callback runs.  Which timer fires is the browser's choice. *)
Definition fire (i : nat) : Script () :=
  λ p, match timers p !! i with
       | Some t => run_callback (callback t) (set_timers (delete i) p)
       | None => Done () p
       end.

(** A number inside a template literal: its decimal digits. *)
Definition decimal (n : N) : js_string := of_ascii (pretty n).

(** The object a record of the store arrives as: a number and a string
    pass through JSON unchanged. *)
Definition to_object (m : Message) : JsValue :=
  JsObject [(of_ascii "id", id m); (of_ascii "text", text m)].

(** The payload of a server event as the listener gets it. *)
Definition payload (ev : ServerEvent) : JsValue :=
  match ev with
  | load_messages backlog => JsArray (to_object <$> backlog)
  | display_message m => to_object m
  end.

(** The [li] for a record. *)
Definition item_of (m : Message) : Item :=
  {| textContent := text m; data_id := id m |}.

(** The records an event carries. *)
Definition records (ev : ServerEvent) : list Message :=
  match ev with
  | load_messages backlog => backlog
  | display_message m => [m]
  end.

(** The list a viewer should show after an event: a backlog replaces what
    was shown, a new record is added at the end. *)
Definition view_step (shown : list Item) (ev : ServerEvent) : list Item :=
  match ev with
  | load_messages backlog => item_of <$> backlog
  | display_message m => shown ++ [item_of m]
  end.

Definition view_after (evs : list ServerEvent) (shown : list Item) : list Item :=
  foldl view_step shown evs.

End Browser.

Export Browser.

(** *** [public/app.js] *)

Module AppJs.

Definition scrollToBottom : Script () := scrollTo.

(** [!message || typeof message.text !== 'string'] *)
Definition invalid (message : JsValue) : Script bool :=
  if negb (truthy message) then mret true
  else
    text ← member (of_ascii "text") message;
    mret (negb (is_string text)).

Definition addMessageToList (message : JsValue) : Script () :=
  bad ← invalid message;
  if bad : bool then
    console_call (ErrorCall [JsString (of_ascii "Invalid message object received:"); message])
  else
    text ← member (of_ascii "text") message;
    ident ← member (of_ascii "id") message;
    appendChild {| textContent := text; data_id := ident |};;
    scrollToBottom.

(** The item an entry of a payload is shown as, when it is shown. *)
Definition shown_as (message : JsValue) : option Item :=
  match message with
  | JsObject fields =>
      match own_property (of_ascii "text") fields with
      | JsString s =>
          Some {| textContent := JsString s;
                  data_id := own_property (of_ascii "id") fields |}
      | _ => None
      end
  | _ => None
  end.

(** [updateStatus(text, delay)]; callers that leave [delay] out pass 2000. *)
Definition updateStatus (text : js_string) (ms : Z) : Script () :=
  present ← has_status_el;
  if present : bool then
    set_status text;;
    if bool_decide (0 < ms) then setTimeout (ClearIfUnchanged text) ms else mret ()
  else mret ().

(** The script's start: the listener of the form is installed only when
    the form and the input both exist. *)
Definition listening (p : Page) : bool :=
  form_el p && present (input_el p).

Definition main : Script () :=
  λ p, if listening p then Done () p
       else console_call
              (ErrorCall [JsString (of_ascii "Message form or input element not found!")]) p.

(** The listener of the form's [submit]. *)
Definition on_submit : Script () :=
  λ p, if listening p then
         (v ← get_input_value;
          let messageText := trim v in
          if truthy (JsString messageText) then
            emit_new_message (JsString messageText);;
            set_input_value [];;
            updateStatus (of_ascii "Message sent!") 2000;;
            focus_input
          else mret ()) p
       else Done () p.

Definition on_connect (socket_id : JsValue) : Script () :=
  console_call (LogCall [JsString (of_ascii "Connected to server:"); socket_id]);;
  updateStatus (of_ascii "Connected.") 2000.

Definition on_load_messages (existingMessages : JsValue) : Script () :=
  console_call (LogCall [JsString (of_ascii "Loading existing messages:"); existingMessages]);;
  present ← has_messages_el;
  if present : bool then
    clear_messages_el;;
    match existingMessages with
    | JsArray items => forEach addMessageToList items
    | _ =>
        console_call
          (ErrorCall [JsString (of_ascii "Received non-array for existing messages:");
                      existingMessages])
    end
  else console_call (ErrorCall [JsString (of_ascii "Messages list element not found!")]).

Definition on_display_message (messageData : JsValue) : Script () :=
  console_call (LogCall [JsString (of_ascii "New message received:"); messageData]);;
  addMessageToList messageData.

Definition on_disconnect (reason : JsValue) : Script () :=
  console_call (LogCall [JsString (of_ascii "Disconnected from server:"); reason]);;
  updateStatus (of_ascii "Disconnected from server.") 0.

(** [err_message] is [err.message]. *)
Definition on_connect_error (err_message : js_string) : Script () :=
  console_call (ErrorCall [JsString (of_ascii "Connection failed:"); JsString err_message]);;
  updateStatus (of_ascii "Connection failed: " ++ err_message) 0.

Definition on_reconnect_attempt (attemptNumber : N) : Script () :=
  console_call
    (LogCall [JsString (of_ascii "Reconnection attempt " ++ decimal attemptNumber
                        ++ of_ascii "...")]);;
  updateStatus (of_ascii "Trying to reconnect (" ++ decimal attemptNumber
                ++ of_ascii ")...") 0.

Definition on_reconnect (attemptNumber : N) : Script () :=
  console_call
    (LogCall [JsString (of_ascii "Successfully reconnected after "
                        ++ decimal attemptNumber ++ of_ascii " attempts.")]);;
  updateStatus (of_ascii "Reconnected.") 2000.

Definition on_reconnect_failed : Script () :=
  console_call (ErrorCall [JsString (of_ascii "Reconnection failed.")]);;
  updateStatus (of_ascii "Could not reconnect to the server.") 0.

(** What can happen to the page. *)
Inductive PageEvent : Type :=
  | UserTypes (v : js_string)      (* the user edits the input *)
  | FormSubmit
  | SocketConnect (socket_id : JsValue)
  | FromServer (ev : ServerEvent)
  | SocketDisconnect (reason : JsValue)
  | ConnectError (err_message : js_string)
  | ReconnectAttempt (attemptNumber : N)
  | Reconnect (attemptNumber : N)
  | ReconnectFailed
  | TimerFires (i : nat).

Definition on_server_event (ev : ServerEvent) : Script () :=
  match ev with
  | load_messages _ => on_load_messages (payload ev)
  | display_message _ => on_display_message (payload ev)
  end.

Definition handle (e : PageEvent) : Script () :=
  match e with
  | UserTypes v =>
      λ p, Done () (set_input_el (fmap (λ i, {| value := v; focused := focused i |})) p)
  | FormSubmit => on_submit
  | SocketConnect socket_id => on_connect socket_id
  | FromServer ev => on_server_event ev
  | SocketDisconnect reason => on_disconnect reason
  | ConnectError err_message => on_connect_error err_message
  | ReconnectAttempt n => on_reconnect_attempt n
  | Reconnect n => on_reconnect n
  | ReconnectFailed => on_reconnect_failed
  | TimerFires i => fire i
  end.

(** The page after a sequence of events; an exception that escapes a
    listener ends that listener only. *)
Definition play (events : list PageEvent) (p : Page) : Page :=
  foldl (λ q e, page_of (handle e q)) p events.

(** The events whose listener calls [updateStatus] with delay 0. *)
Definition shows_notice (e : PageEvent) : bool :=
  match e with
  | SocketDisconnect _ | ConnectError _ | ReconnectAttempt _ | ReconnectFailed => true
  | _ => false
  end.

(** The texts [updateStatus] is called with under a positive delay. *)
Definition passing_texts : list js_string :=
  [of_ascii "Message sent!"; of_ascii "Connected."; of_ascii "Reconnected."].

(** Every pending timer is one of [updateStatus] for a passing text. *)
Definition timers_are_passing (p : Page) : Prop :=
  Forall (λ t, ∃ text, callback t = ClearIfUnchanged text ∧ text ∈ passing_texts)
         (timers p).

(** The server's events among those of the page, in order. *)
Definition from_server (events : list PageEvent) : list ServerEvent :=
  omap (λ e, match e with FromServer ev => Some ev | _ => None end) events.

End AppJs.

(** *** [public/client.js] *)

Module ClientJs.

Definition addMessageToList (message : JsValue) : Script () :=
  text ← member (of_ascii "text") message;
  ident ← member (of_ascii "id") message;
  appendChild {| textContent := text; data_id := ident |};;
  scrollTo.

Definition on_display_message (messageData : JsValue) : Script () :=
  addMessageToList messageData.

(** The item an entry of a payload is shown as, when the call returns. *)
Definition shown_as (message : JsValue) : option Item :=
  match message with
  | JsUndefined | JsNull => None
  | JsObject fields =>
      Some {| textContent := own_property (of_ascii "text") fields;
              data_id := own_property (of_ascii "id") fields |}
  | _ => Some {| textContent := JsUndefined; data_id := JsUndefined |}
  end.

(** The items of the entries before the first that is not shown. *)
Fixpoint shown_before_failure (entries : list JsValue) : list Item :=
  match entries with
  | [] => []
  | x :: rest =>
      match shown_as x with
      | Some item => item :: shown_before_failure rest
      | None => []
      end
  end.

(** [existingMessages.forEach(addMessageToList)]: only an array has
    [forEach]. *)
Definition on_load_messages (existingMessages : JsValue) : Script () :=
  clear_messages_el;;
  match existingMessages with
  | JsArray items => forEach addMessageToList items
  | _ => raise TypeError
  end.

Definition on_connect_error (err_message : js_string) : Script () :=
  console_call (ErrorCall [JsString (of_ascii "Connection failed:"); JsString err_message]).

Definition on_server_event (ev : ServerEvent) : Script () :=
  match ev with
  | load_messages _ => on_load_messages (payload ev)
  | display_message _ => on_display_message (payload ev)
  end.

(** The page after the events a socket received, in order. *)
Definition play (events : list ServerEvent) (p : Page) : Page :=
  foldl (λ q ev, page_of (on_server_event ev q)) p events.

End ClientJs.

(** *** [public/submit.js] *)

Module SubmitJs.

(** The script's start: [form.addEventListener(...)] throws on [null], and
    then none of the listeners below is installed. *)
Definition main : Script () :=
  λ p, if form_el p then Done () p else Raised TypeError p.

Definition installed (h : Script ()) : Script () :=
  λ p, if form_el p then h p else Done () p.

(** The listener of the form's [submit]. *)
Definition on_submit : Script () :=
  installed
    (v ← get_input_value;
     if truthy (JsString v) then
       emit_new_message (JsString v);;
       set_input_value [];;
       set_status (of_ascii "Message sent!");;
       setTimeout ClearAlways 2000
     else mret ()).

Definition on_connect_error (err_message : js_string) : Script () :=
  installed
    (console_call
       (ErrorCall [JsString (of_ascii "Connection failed:"); JsString err_message]);;
     set_status (of_ascii "Failed to connect to server.")).

Definition on_connect : Script () :=
  installed
    (set_status (of_ascii "Connected.");;
     setTimeout ClearAlways 2000).

Definition on_disconnect : Script () :=
  installed (set_status (of_ascii "Disconnected from server.")).

End SubmitJs.

(** ** Properties of the runtime model *)

Lemma trim_start_suffix s : trim_start s `suffix_of` s.
Proof.
  induction s as [|c s IH]; simpl; [done|].
  destruct (is_white_space c); [by apply suffix_cons_r | done].
Qed.

Lemma trim_start_length s : (length (trim_start s) ≤ length s)%nat.
Proof. apply suffix_length, trim_start_suffix. Qed.

Lemma trim_length s : (length (trim s) ≤ length s)%nat.
Proof.
  unfold trim, trim_end. rewrite length_reverse.
  etrans; [apply trim_start_length|]. rewrite length_reverse.
  apply trim_start_length.
Qed.

Lemma trim_start_nil_iff s :
  trim_start s = [] ↔ forallb is_white_space s = true.
Proof.
  induction s as [|c s IH]; simpl; [done|].
  destruct (is_white_space c); simpl; [done|]. split; discriminate.
Qed.

(** What [trim_start] leaves does not begin with white space. *)
Lemma trim_start_head s c r : trim_start s = c :: r → is_white_space c = false.
Proof.
  induction s as [|d s IH]; simpl; [done|].
  destruct (is_white_space d) eqn:Hd; [done|]. by intros [= <- _].
Qed.

(** [trim] yields the empty string exactly on strings of white space. *)
Lemma trim_nil_iff s : trim s = [] ↔ forallb is_white_space s = true.
Proof.
  rewrite <-trim_start_nil_iff. unfold trim, trim_end. split; [|by intros ->].
  intros H. apply (f_equal reverse) in H. rewrite reverse_involutive in H.
  apply trim_start_nil_iff in H.
  destruct (trim_start s) as [|c r] eqn:Hs; [done|].
  apply trim_start_head in Hs. rewrite forallb_forall in H.
  rewrite (H c) in Hs; [done|].
  apply list_elem_of_In, elem_of_reverse. by left.
Qed.

(** A string made of white space only trims to the empty string. *)
Lemma trim_start_blank s :
  forallb is_white_space s = true → trim_start s = [].
Proof.
  induction s as [|c s IH]; simpl; [done|].
  destruct (is_white_space c); simpl; [done|discriminate].
Qed.

Lemma received_broadcast_absent c ev (cs : list SocketId) :
  c ∉ cs → received c ((λ c', (c', ev)) <$> cs) = [].
Proof.
  unfold received. induction cs as [|d cs IH]; intros Hc; [done|].
  apply not_elem_of_cons in Hc as [Hd Hc]. simpl.
  rewrite filter_cons_False by (simpl; congruence). auto.
Qed.

Lemma received_broadcast_list c ev (cs : list SocketId) :
  NoDup cs → c ∈ cs → received c ((λ c', (c', ev)) <$> cs) = [ev].
Proof.
  induction cs as [|c' cs IH]; intros Hnd Hin.
  - by apply elem_of_nil in Hin.
  - apply NoDup_cons in Hnd as [Hc' Hnd].
    destruct (decide (c' = c)) as [->|Hne].
    + rewrite fmap_cons. unfold received. rewrite filter_cons_True by done.
      rewrite fmap_cons. f_equal. exact (received_broadcast_absent c ev cs Hc').
    + apply elem_of_cons in Hin as [->|Hin]; [done|].
      rewrite fmap_cons. unfold received. rewrite filter_cons_False by done.
      exact (IH Hnd Hin).
Qed.

(** [io.emit] reaches a connected socket exactly once, others not at all. *)
Lemma received_broadcast c ev (cs : gset SocketId) :
  received c ((λ c', (c', ev)) <$> elements cs) = if decide (c ∈ cs) then [ev] else [].
Proof.
  destruct (decide (c ∈ cs)) as [Hin|Hout].
  - apply received_broadcast_list; [apply NoDup_elements | by apply elem_of_elements].
  - apply received_broadcast_absent. by rewrite elem_of_elements.
Qed.

(** ** What each handler does to the state *)

Lemma validation_string s st :
  validation (JsString s) st = Normal (bool_decide (0 < length (trim s))%nat) st.
Proof. destruct s; reflexivity. Qed.

Lemma validation_falsy msg st :
  truthy msg = false → validation msg st = Normal false st.
Proof. unfold validation. by intros ->. Qed.

Lemma validation_throws msg st :
  truthy msg = true → is_string msg = false →
  validation msg st = Throw TypeError st.
Proof. unfold validation. intros ->. by destruct msg. Qed.

(** The three ways the check can end; none touches the state. *)
Lemma validation_cases msg st :
  (∃ s, msg = JsString s ∧ (0 < length (trim s))%nat ∧
        validation msg st = Normal true st)
  ∨ validation msg st = Normal false st
  ∨ (truthy msg = true ∧ is_string msg = false ∧
     validation msg st = Throw TypeError st).
Proof.
  destruct (is_string msg) eqn:Hs.
  - destruct msg as [| | | |s| |]; try discriminate.
    rewrite validation_string. case_bool_decide; [left; eauto | right; left; done].
  - destruct (truthy msg) eqn:Ht.
    + right; right. eauto using validation_throws.
    + right; left. by apply validation_falsy.
Qed.

Lemma validation_true_inv msg st st' :
  validation msg st = Normal true st' →
  ∃ s, msg = JsString s ∧ (0 < length (trim s))%nat.
Proof.
  destruct (validation_cases msg st) as [(s & -> & Hs & _)|[H|(_ & _ & H)]];
    [eauto | rewrite H; congruence ..].
Qed.

Lemma on_new_message_accepted now s st :
  (0 < length (trim s))%nat →
  on_new_message now (JsString s) st
  = Normal () (stored {| id := JsNumber now; text := JsString s |}
                      (logged (JsString s) st)).
Proof.
  intros Hs. unfold on_new_message, mbind, Handler_bind, console_log.
  fold (logged (JsString s) st). rewrite validation_string.
  by rewrite bool_decide_eq_true_2.
Qed.

Lemma on_new_message_dropped now msg st :
  validation msg (logged msg st) = Normal false (logged msg st) →
  on_new_message now msg st = Normal () (logged msg st).
Proof.
  intros H. unfold on_new_message, mbind, Handler_bind, console_log.
  fold (logged msg st). by rewrite H.
Qed.

Lemma on_new_message_thrown now msg st :
  truthy msg = true → is_string msg = false →
  on_new_message now msg st = Throw TypeError (logged msg st).
Proof.
  intros Ht Hs. unfold on_new_message, mbind, Handler_bind, console_log.
  fold (logged msg st). by rewrite validation_throws.
Qed.

(** Every run of the listener ends in one of three states. *)
Lemma on_new_message_cases now msg st :
  (∃ s, msg = JsString s ∧ (0 < length (trim s))%nat ∧
        on_new_message now msg st
        = Normal () (stored {| id := JsNumber now; text := msg |} (logged msg st)))
  ∨ on_new_message now msg st = Normal () (logged msg st)
  ∨ (truthy msg = true ∧ is_string msg = false ∧
     on_new_message now msg st = Throw TypeError (logged msg st)).
Proof.
  destruct (validation_cases msg (logged msg st))
    as [(s & -> & Hs & _)|[H|(Ht & Hs & _)]].
  - left. eauto using on_new_message_accepted.
  - right; left. by apply on_new_message_dropped.
  - right; right. eauto using on_new_message_thrown.
Qed.

Lemma onConnect_state socket st :
  onConnect socket st
  = Normal ()
      (set_outbox (λ out, out ++ [(socket, load_messages (messages st))])
         (set_console (λ out, out ++ [UserConnected socket])
            (set_sockets (λ cs, {[socket]} ∪ cs) st))).
Proof. reflexivity. Qed.

Lemma onDisconnect_state socket st :
  onDisconnect socket st
  = Normal ()
      (set_console (λ out, out ++ [UserDisconnected socket])
         (set_sockets (λ cs, cs ∖ {[socket]}) st)).
Proof. reflexivity. Qed.

Lemma sent_by_app {A} (h : Handler A) st added :
  outbox (state_of (h st)) = outbox st ++ added → sent_by h st = added.
Proof. unfold sent_by. intros ->. by rewrite drop_app_length. Qed.

(** ** Broadcast of an accepted submission *)

(** C1, as the specification words it, fails: the record that is stored and
    broadcast carries the text as submitted, not its trimmed form.  With one
    client "a" connected, "a" submits " hi " (non-blank); what "a" receives
    is one display_message with text " hi ", and no record with text "hi"
    is stored or received. *)
Lemma fan_out_text_not_trimmed :
  let T := of_ascii " hi " in
  let st := run [Connect "a"] initial in
  let submit := dispatch (Submit "a" 1 (JsString T)) in
  "a" ∈ sockets st ∧ (0 < length (trim T))%nat ∧
  ¬ (∃ m, last (messages (state_of (submit st))) = Some m ∧
          text m = JsString (trim T)) ∧
  ¬ (∃ m, received "a" (sent_by submit st) = [display_message m] ∧
          text m = JsString (trim T)).
Proof.
  cbv zeta. split; [by vm_compute|]. split; [vm_compute; lia|].
  split; intros (m & Hm & Ht).
  - vm_compute in Hm. injection Hm as <-. vm_compute in Ht. discriminate.
  - vm_compute in Hm. injection Hm as <-. vm_compute in Ht. discriminate.
Qed.

(** C1 (amended): when a connected client submits a non-blank text [T],
    the listener appends the record [{id: now, text: T}], with the text as
    submitted, and every connected client, the submitter included, receives
    exactly one event from it: display_message with that record.  A socket
    that is not connected receives nothing. *)
Theorem fan_out_raw_text (st : State) (c : SocketId) (now : Z) (T : js_string) :
  c ∈ sockets st →
  (0 < length (trim T))%nat →
  let submit := dispatch (Submit c now (JsString T)) in
  let m := {| id := JsNumber now; text := JsString T |} in
  returns (submit st) = true ∧
  messages (state_of (submit st)) = messages st ++ [m] ∧
  (∀ c', c' ∈ sockets st → received c' (sent_by submit st) = [display_message m]) ∧
  (∀ c', c' ∉ sockets st → received c' (sent_by submit st) = []).
Proof.
  intros Hc HT submit m.
  assert (Hrun : submit st = Normal () (stored m (logged (JsString T) st))).
  { unfold submit, dispatch, deliverable. rewrite bool_decide_eq_true_2 by done.
    by apply on_new_message_accepted. }
  assert (Hsent : sent_by submit st
                  = (λ c', (c', display_message m)) <$> elements (sockets st)).
  { apply sent_by_app. by rewrite Hrun. }
  rewrite Hrun, Hsent. repeat split; intros c' Hc';
    rewrite received_broadcast; by case_decide.
Qed.

Lemma fan_out_raw_text_witness :
  let st := run [Connect "a"; Connect "b"] initial in
  let submit := dispatch (Submit "a" 1 (JsString (of_ascii " hi "))) in
  let m := {| id := JsNumber 1; text := JsString (of_ascii " hi ") |} in
  returns (submit st) = true ∧
  messages (state_of (submit st)) = messages st ++ [m] ∧
  (∀ c', c' ∈ sockets st → received c' (sent_by submit st) = [display_message m]) ∧
  (∀ c', c' ∉ sockets st → received c' (sent_by submit st) = []).
Proof.
  apply (fan_out_raw_text (run [Connect "a"; Connect "b"] initial) "a" 1
           (of_ascii " hi ")).
  - by vm_compute.
  - vm_compute. lia.
Defined.

(** ** Backlog replay *)

(** C2: whatever the store holds, a client that connects is sent, by the
    connection callback itself, exactly one event: load_messages with the
    store's content, the same records in the same order; nobody else is sent
    anything and the store is left as it was. *)
Theorem backlog_replay (st : State) (c : SocketId) :
  c ∉ sockets st →
  let connect := dispatch (Connect c) in
  returns (connect st) = true ∧
  sent_by connect st = [(c, load_messages (messages st))] ∧
  received c (sent_by connect st) = [load_messages (messages st)] ∧
  messages (state_of (connect st)) = messages st ∧
  c ∈ sockets (state_of (connect st)).
Proof.
  intros Hc connect.
  assert (Hrun : connect st = onConnect c st).
  { unfold connect, dispatch, deliverable. by rewrite bool_decide_eq_true_2. }
  assert (Hsent : sent_by connect st = [(c, load_messages (messages st))]).
  { apply sent_by_app. by rewrite Hrun, onConnect_state. }
  rewrite Hsent, Hrun, onConnect_state. simpl. repeat split; [|set_solver].
  unfold received. by rewrite filter_cons_True.
Qed.

Lemma backlog_replay_witness :
  let st := run [Connect "a"; Submit "a" 1 (JsString (of_ascii "a"));
                 Submit "a" 2 (JsString (of_ascii "b"))] initial in
  sent_by (dispatch (Connect "c")) st
  = [("c", load_messages [ {| id := JsNumber 1; text := JsString (of_ascii "a") |};
                           {| id := JsNumber 2; text := JsString (of_ascii "b") |} ])].
Proof.
  refine (proj1 (proj2 (backlog_replay
    (run [Connect "a"; Submit "a" 1 (JsString (of_ascii "a"));
          Submit "a" 2 (JsString (of_ascii "b"))] initial) "c" _))).
  by vm_compute.
Defined.

(** ** Validation *)

(** C3: for each of the empty string, a string of three spaces, null and
    undefined, the listener returns without throwing, sends nothing to
    anybody (in particular no display_message and no error event to the
    sender), and leaves the store, hence its length, as it was. *)
Theorem blank_submissions_dropped :
  Forall (λ msg, ∀ (st : State) (c : SocketId) (now : Z),
            returns (onSubmit now msg st) = true ∧
            sent_by (onSubmit now msg) st = [] ∧
            messages (state_of (onSubmit now msg st)) = messages st ∧
            length (messages (state_of (onSubmit now msg st))) = length (messages st) ∧
            returns (dispatch (Submit c now msg) st) = true ∧
            sent_by (dispatch (Submit c now msg)) st = [] ∧
            messages (state_of (dispatch (Submit c now msg) st)) = messages st)
    [JsString []; JsString (of_ascii "   "); JsNull; JsUndefined].
Proof.
  assert (Hdrop : ∀ msg, (∀ st, validation msg st = Normal false st) →
            ∀ st now, onSubmit now msg st = Normal () (logged msg st)).
  { intros msg H st now. by apply on_new_message_dropped. }
  repeat apply Forall_cons_2; [..|apply Forall_nil_2]; intros st c now.
  all: unfold dispatch, handler, deliverable, sent_by.
  all: rewrite Hdrop by (intros; reflexivity).
  all: case_bool_decide; simpl; by rewrite drop_all.
Qed.

(** ** What one event does to the store and to the outbox *)

(** A handler either leaves the store alone and broadcasts no record, or
    it is the listener accepting a non-blank string, which appends one
    record and broadcasts it. *)
Lemma handler_effect e st :
  let st' := state_of (handler e st) in
  (messages st' = messages st ∧
   ∀ c m, (c, display_message m) ∈ outbox st' → (c, display_message m) ∈ outbox st)
  ∨ (∃ c now s, e = Submit c now (JsString s) ∧ (0 < length (trim s))%nat ∧
       let m := {| id := JsNumber now; text := JsString s |} in
       messages st' = messages st ++ [m] ∧
       outbox st' = outbox st ++ broadcast m st).
Proof.
  cbv zeta. destruct e as [c|c now msg|c]; cbn [handler].
  - left. rewrite onConnect_state. simpl. split; [done|].
    intros c' m [H|H]%elem_of_app; [done|].
    apply list_elem_of_singleton in H. congruence.
  - unfold onSubmit.
    destruct (on_new_message_cases now msg st)
      as [(s & -> & Hs & ->)|[->|(_ & _ & ->)]]; simpl; eauto 10.
  - left. by rewrite onDisconnect_state.
Qed.

Lemma dispatch_effect e st :
  let st' := state_of (dispatch e st) in
  (messages st' = messages st ∧
   ∀ c m, (c, display_message m) ∈ outbox st' → (c, display_message m) ∈ outbox st)
  ∨ (∃ c now s, e = Submit c now (JsString s) ∧ (0 < length (trim s))%nat ∧
       let m := {| id := JsNumber now; text := JsString s |} in
       messages st' = messages st ++ [m] ∧
       outbox st' = outbox st ++ broadcast m st).
Proof.
  unfold dispatch. destruct (deliverable e st); [apply handler_effect|].
  left. simpl. auto.
Qed.

Lemma run_cons e events st :
  run (e :: events) st = run events (state_of (dispatch e st)).
Proof. reflexivity. Qed.

Lemma run_snoc events e st :
  run (events ++ [e]) st = state_of (dispatch e (run events st)).
Proof. unfold run. by rewrite foldl_snoc. Qed.

(** A property of the state that every dispatch keeps holds after a run. *)
Lemma run_invariant (P : State → Prop) :
  (∀ e st, P st → P (state_of (dispatch e st))) →
  ∀ events st, P st → P (run events st).
Proof.
  intros Hstep events. induction events as [|e events IH]; intros st HP; [done|].
  rewrite run_cons. auto.
Qed.

Lemma clock_tail e events : clock events `sublist_of` clock (e :: events).
Proof. destruct e; simpl; [done| by apply sublist_cons |done]. Qed.

Lemma StronglySorted_sublist (ks ns : list Z) :
  ks `sublist_of` ns → StronglySorted Z.le ns → StronglySorted Z.le ks.
Proof.
  induction 1 as [|x ks ns Hsub IH|x ks ns Hsub IH]; intros Hs; [done|..].
  - apply StronglySorted_cons in Hs as [Hx Hs].
    apply StronglySorted_cons. split; [|auto].
    eapply Forall_forall. intros y Hy. eapply Forall_forall in Hx; [done|].
    by apply (elem_of_sublist ks ns).
  - apply StronglySorted_cons in Hs as [_ Hs]. auto.
Qed.

(** Ids already stored, followed by the readings still to come, stay in
    order through a run. *)
Lemma run_ids_sorted events :
  ∀ st ns,
    id <$> messages st = JsNumber <$> ns →
    StronglySorted Z.le (ns ++ clock events) →
    ∃ ns', id <$> messages (run events st) = JsNumber <$> ns' ∧
           StronglySorted Z.le ns'.
Proof.
  induction events as [|e events IH]; intros st ns Hids Hsorted.
  - exists ns. rewrite app_nil_r in Hsorted. done.
  - rewrite run_cons.
    destruct (dispatch_effect e st) as [[Hm _]|(c & now & s & -> & _ & Hm & _)].
    + apply (IH _ ns); [by rewrite Hm|].
      eapply StronglySorted_sublist; [|done].
      apply sublist_app; [done | apply clock_tail].
    + apply (IH _ (ns ++ [now])).
      * rewrite Hm, !fmap_app, Hids. done.
      * by rewrite <-app_assoc.
Qed.

(** ** Invariants of the store *)

(** C4: after any sequence of connect, submit and disconnect events from
    the empty store, every stored record has a string as text whose trimmed
    form is not empty. *)
Theorem store_texts_nonblank (events : list Event) :
  Forall (λ m, nonblank_text m = true) (messages (run events initial)).
Proof.
  apply (run_invariant (λ st, Forall (λ m, nonblank_text m = true) (messages st)));
    [|by apply Forall_nil_2].
  intros e st Hst.
  destruct (dispatch_effect e st) as [[-> _]|(c & now & s & _ & Hs & -> & _)]; [done|].
  apply Forall_app. split; [done|]. apply Forall_singleton.
  unfold nonblank_text. simpl. by apply bool_decide_eq_true_2.
Qed.

(** C5: in any run, whatever the clock does, every stored record and every
    record broadcast in a display_message has a number as id; and when the
    clock readings that come with the submissions are non-decreasing, so are
    the ids of the store in its order. *)
Theorem ids_numeric_and_sorted (events : list Event) :
  let st := run events initial in
  Forall (λ m, is_number (id m) = true) (messages st) ∧
  (∀ c m, (c, display_message m) ∈ outbox st → is_number (id m) = true) ∧
  (Sorted Z.le (clock events) →
   ∃ ns, id <$> messages st = JsNumber <$> ns ∧ Sorted Z.le ns).
Proof.
  intros st. split; [|split].
  - apply (run_invariant (λ st, Forall (λ m, is_number (id m) = true) (messages st)));
      [|by apply Forall_nil_2].
    intros e s Hs.
    destruct (dispatch_effect e s) as [[-> _]|(c & now & t & _ & _ & -> & _)]; [done|].
    apply Forall_app. split; [done|]. by apply Forall_singleton.
  - apply (run_invariant
             (λ st, ∀ c m, (c, display_message m) ∈ outbox st → is_number (id m) = true)).
    + intros e s Hs c m Hin.
      destruct (dispatch_effect e s) as [[_ Hout]|(c' & now & t & _ & _ & _ & Hout)];
        [by eauto|].
      rewrite Hout in Hin. apply elem_of_app in Hin as [Hin|Hin]; [by eauto|].
      apply list_elem_of_fmap in Hin as (c'' & [= -> ->] & _). done.
    + intros c m Hin. simpl in Hin. by apply elem_of_nil in Hin.
  - intros Hclock.
    destruct (run_ids_sorted events initial []) as (ns & Hns & Hsorted).
    + done.
    + simpl. by apply Sorted_StronglySorted; [apply _|].
    + exists ns. split; [done|]. by apply StronglySorted_Sorted.
Qed.

Lemma ids_numeric_and_sorted_witness :
  let events := [Connect "a"; Submit "a" 3 (JsString (of_ascii "x"));
                 Submit "a" 3 (JsString (of_ascii " "));
                 Submit "a" 7 (JsString (of_ascii "y"))] in
  let st := run events initial in
  Sorted Z.le (clock events) ∧
  Forall (λ m, is_number (id m) = true) (messages st) ∧
  (∀ c m, (c, display_message m) ∈ outbox st → is_number (id m) = true) ∧
  ∃ ns, id <$> messages st = JsNumber <$> ns ∧ Sorted Z.le ns.
Proof.
  cbv zeta.
  assert (Hclock : Sorted Z.le
            (clock [Connect "a"; Submit "a" 3 (JsString (of_ascii "x"));
                    Submit "a" 3 (JsString (of_ascii " "));
                    Submit "a" 7 (JsString (of_ascii "y"))])).
  { simpl. repeat constructor; lia. }
  destruct (ids_numeric_and_sorted
              [Connect "a"; Submit "a" 3 (JsString (of_ascii "x"));
               Submit "a" 3 (JsString (of_ascii " "));
               Submit "a" 7 (JsString (of_ascii "y"))])
    as (Hstored & Hsent & Hsorted).
  split; [exact Hclock|]. split; [exact Hstored|]. split; [exact Hsent|].
  exact (Hsorted Hclock).
Defined.

(** Readings that go back, 5 then 3, give a store whose ids are the
    numbers 5 and 3, in that order. *)
Example ids_with_clock_going_back :
  let st := run [Connect "a"; Submit "a" 5 (JsString (of_ascii "x"));
                 Submit "a" 3 (JsString (of_ascii "y"))] initial in
  id <$> messages st = [JsNumber 5; JsNumber 3] ∧
  forallb (λ m, is_number (id m)) (messages st) = true.
Proof. by vm_compute. Qed.

(** C6: the store only grows at its end.  Whatever event arrives and
    whatever the state, the store before the handler ran is a prefix of the
    store after it, and at most one record was added; this holds for the
    handler run unconditionally and as [dispatch] runs it, and so the store
    at any point of a run is a prefix of the store at any later point. *)
Theorem store_append_only :
  (∀ e st, messages st `prefix_of` messages (state_of (handler e st)) ∧
           (length (messages (state_of (handler e st))) ≤ S (length (messages st)))%nat) ∧
  (∀ e st, messages st `prefix_of` messages (state_of (dispatch e st)) ∧
           (length (messages (state_of (dispatch e st))) ≤ S (length (messages st)))%nat) ∧
  (∀ events st, messages st `prefix_of` messages (run events st)).
Proof.
  assert (Hdispatch :
    ∀ e st, messages st `prefix_of` messages (state_of (dispatch e st)) ∧
            (length (messages (state_of (dispatch e st))) ≤ S (length (messages st)))%nat).
  { intros e st.
    destruct (dispatch_effect e st) as [[-> _]|(c & now & s & _ & _ & -> & _)].
    - split; [done|lia].
    - split; [by apply prefix_app_r|]. rewrite length_app. simpl. lia. }
  split; [|split; [done|]].
  - intros e st.
    destruct (handler_effect e st) as [[-> _]|(c & now & s & _ & _ & -> & _)].
    + split; [done|lia].
    + split; [by apply prefix_app_r|]. rewrite length_app. simpl. lia.
  - intros events. induction events as [|e events IH]; intros st; [done|].
    rewrite run_cons. etrans; [apply (Hdispatch e st)|apply IH].
Qed.

(** ** What a submission sends *)

Lemma validation_any_state msg st :
  validation msg st
  = match validation msg initial with
    | Normal ok _ => Normal ok st
    | Throw e _ => Throw e st
    end.
Proof. unfold validation. destruct (truthy msg); [by destruct msg | done]. Qed.

Lemma accepts_true msg st : validation msg st = Normal true st ↔ accepts msg = true.
Proof.
  rewrite (validation_any_state msg st). unfold accepts.
  destruct (validation msg initial) as [[] ?|]; naive_solver.
Qed.

Lemma onSubmit_accepted now msg st :
  accepts msg = true →
  onSubmit now msg st
  = Normal () (stored {| id := JsNumber now; text := msg |} (logged msg st)).
Proof.
  intros Hacc. apply (accepts_true msg st) in Hacc.
  apply validation_true_inv in Hacc as (s & -> & Hs).
  by apply on_new_message_accepted.
Qed.

Lemma onSubmit_not_accepted now msg st :
  accepts msg = false →
  state_of (onSubmit now msg st) = logged msg st.
Proof.
  intros Hacc. unfold onSubmit.
  destruct (on_new_message_cases now msg st)
    as [(s & -> & Hs & _)|[->|(_ & _ & ->)]]; [|done..].
  unfold accepts in Hacc. rewrite validation_string in Hacc.
  by rewrite bool_decide_eq_true_2 in Hacc.
Qed.

(** A string of white space only is never let through. *)
Lemma blank_string_not_accepted s :
  forallb is_white_space s = true → accepts (JsString s) = false.
Proof.
  intros Hs. unfold accepts. rewrite validation_string.
  unfold trim. by rewrite trim_start_blank.
Qed.

(** A text that is let through is a string that is not empty. *)
Lemma accepted_text_nonempty msg :
  accepts msg = true → ∃ s, msg = JsString s ∧ (0 < length s)%nat.
Proof.
  intros (s & -> & Hs)%(accepts_true _ initial)%validation_true_inv.
  exists s. split; [done|]. pose proof (trim_length s). lia.
Qed.

(** The listener sends the broadcast of the new record, or nothing. *)
Lemma sent_by_onSubmit now msg st :
  sent_by (onSubmit now msg) st
  = if accepts msg then broadcast {| id := JsNumber now; text := msg |} st else [].
Proof.
  destruct (accepts msg) eqn:Hacc.
  - apply sent_by_app. by rewrite onSubmit_accepted.
  - unfold sent_by. rewrite onSubmit_not_accepted by done. simpl. apply drop_all.
Qed.

(** ** Disconnection *)

(** C7: when a client [a] disconnects, [a] leaves the connected sockets and
    the listener logs one line; the store is unchanged and nothing is sent.
    Any other client [b] stays connected if it was, and what [b] receives
    from any later submission is what it would have received had [a] not
    disconnected. *)
Theorem disconnect_isolated (a b : SocketId) (st : State) (now : Z) (msg : JsValue) :
  a ≠ b →
  let st' := state_of (onDisconnect a st) in
  returns (onDisconnect a st) = true ∧
  sockets st' = sockets st ∖ {[a]} ∧
  console st' = console st ++ [UserDisconnected a] ∧
  messages st' = messages st ∧
  outbox st' = outbox st ∧
  (a ∈ sockets st → dispatch (Disconnect a) st = onDisconnect a st) ∧
  (b ∈ sockets st ↔ b ∈ sockets st') ∧
  received b (sent_by (onSubmit now msg) st')
  = received b (sent_by (onSubmit now msg) st).
Proof.
  intros Hab st'. subst st'. rewrite onDisconnect_state. simpl.
  repeat split; try done.
  - intros Ha. unfold dispatch, deliverable. by rewrite bool_decide_eq_true_2.
  - intros Hb. apply elem_of_difference. split; [done|].
    intros ->%elem_of_singleton. done.
  - by intros [Hb _]%elem_of_difference.
  - rewrite !sent_by_onSubmit. destruct (accepts msg); [|done].
    unfold broadcast. rewrite !received_broadcast. simpl.
    destruct (decide (b ∈ sockets st)) as [Hb|Hb].
    + rewrite decide_True; [done|]. apply elem_of_difference. split; [done|].
      intros ->%elem_of_singleton. done.
    + rewrite decide_False; [done|]. by intros [? _]%elem_of_difference.
Qed.

Lemma disconnect_isolated_witness :
  let st := run [Connect "a"; Connect "b"] initial in
  let st' := state_of (onDisconnect "a" st) in
  received "b" (sent_by (onSubmit 5 (JsString (of_ascii "hi"))) st')
  = received "b" (sent_by (onSubmit 5 (JsString (of_ascii "hi"))) st).
Proof.
  destruct (disconnect_isolated "a" "b" (run [Connect "a"; Connect "b"] initial)
              5 (JsString (of_ascii "hi")))
    as (_ & _ & _ & _ & _ & _ & _ & Hsame); [discriminate | exact Hsame].
Defined.

(** ** Payloads that are not strings *)

(** C9: the check is not total.  On the number 42, on an object without
    fields, on [true] and on an empty array, all truthy and none a string,
    [msg.trim()] throws a TypeError: the listener ends by throwing, after
    logging, with the store untouched and nothing sent.  From the state
    where one client is connected, that client's submission of 42 makes
    [dispatch] end with the TypeError.  In general the listener throws
    exactly on the truthy payloads that are not strings. *)
Theorem validation_throws_on_non_string (st : State) (now : Z) :
  Forall (λ msg, truthy msg = true ∧ is_string msg = false ∧
                 validation msg st = Throw TypeError st ∧
                 onSubmit now msg st = Throw TypeError (logged msg st) ∧
                 messages (state_of (onSubmit now msg st)) = messages st ∧
                 sent_by (onSubmit now msg) st = [])
    [JsNumber 42; JsObject []; JsBool true; JsArray []] ∧
  (∃ st', dispatch (Submit "a" now (JsNumber 42)) (run [Connect "a"] initial)
          = Throw TypeError st') ∧
  (∀ msg, returns (onSubmit now msg st) = false
          ↔ truthy msg = true ∧ is_string msg = false).
Proof.
  split; [|split].
  - repeat apply Forall_cons_2; [..|apply Forall_nil_2].
    all: repeat split; try reflexivity.
    all: unfold sent_by; simpl; apply drop_all.
  - eexists. reflexivity.
  - intros msg. unfold onSubmit.
    destruct (on_new_message_cases now msg st)
      as [(s & -> & Hs & H)|[H|(Ht & Hs & H)]]; rewrite H; simpl.
    + split; [done | by intros [_ ?]].
    + split; [done|]. intros [Ht Hs].
      rewrite on_new_message_thrown in H by done. discriminate.
    + done.
Qed.

(** ** The broadcast record and the stored record *)

(** C10: when the check lets a payload through, the record the listener
    broadcasts is the record it has just stored: the last element of the
    store is [{id: now, text: msg}], and every send of the invocation is a
    display_message carrying that same record, one per connected socket. *)
Theorem broadcast_is_stored_record (st : State) (now : Z) (msg : JsValue) :
  validation msg st = Normal true st →
  let st' := state_of (onSubmit now msg st) in
  let m := {| id := JsNumber now; text := msg |} in
  last (messages st') = Some m ∧
  sent_by (onSubmit now msg) st = broadcast m st ∧
  ∀ c ev, (c, ev) ∈ sent_by (onSubmit now msg) st →
          ∃ m', ev = display_message m' ∧ last (messages st') = Some m' ∧
                id m' = JsNumber now ∧ text m' = msg.
Proof.
  intros Hok%accepts_true st' m.
  assert (Hsent : sent_by (onSubmit now msg) st = broadcast m st).
  { by rewrite sent_by_onSubmit, Hok. }
  assert (Hlast : last (messages st') = Some m).
  { subst st'. rewrite onSubmit_accepted by done. simpl. apply last_snoc. }
  repeat split; [done..|].
  intros c ev Hin. rewrite Hsent in Hin.
  apply list_elem_of_fmap in Hin as (c' & [= -> ->] & _). by exists m.
Qed.

Lemma broadcast_is_stored_record_witness :
  let st := run [Connect "a"; Connect "b"] initial in
  let msg := JsString (of_ascii "hi") in
  last (messages (state_of (onSubmit 9 msg st))) = Some {| id := JsNumber 9; text := msg |}.
Proof.
  destruct (broadcast_is_stored_record (run [Connect "a"; Connect "b"] initial)
              9 (JsString (of_ascii "hi"))) as (Hlast & _); [reflexivity | exact Hlast].
Defined.

(** ** The scenarios of the specification *)

(** The store starts empty; a client connects and receives an empty
    backlog; it submits "hi"; it and the other connected client each receive
    the record, and the store has length 1. *)
Example scenario_first_message :
  let hi := {| id := JsNumber 1700000000000; text := JsString (of_ascii "hi") |} in
  let st := run [Connect "c1"; Connect "c2";
                 Submit "c1" 1700000000000 (JsString (of_ascii "hi"))] initial in
  received "c1" (outbox st) = [load_messages []; display_message hi] ∧
  received "c2" (outbox st) = [load_messages []; display_message hi] ∧
  messages st = [hi].
Proof. by vm_compute. Qed.

(** A store holding two records is replayed to a new client as it is. *)
Example scenario_backlog :
  let a := {| id := JsNumber 1; text := JsString (of_ascii "a") |} in
  let b := {| id := JsNumber 2; text := JsString (of_ascii "b") |} in
  let st := set_messages (λ _, [a; b]) initial in
  sent_by (dispatch (Connect "c")) st = [("c", load_messages [a; b])].
Proof. by vm_compute. Qed.

(** ** More on the server: what it sends and to whom *)

Lemma received_app c xs ys : received c (xs ++ ys) = received c xs ++ received c ys.
Proof. unfold received. by rewrite filter_app, fmap_app. Qed.

Lemma received_single c c' ev :
  received c [(c', ev)] = if decide (c' = c) then [ev] else [].
Proof.
  unfold received. case_decide.
  - by rewrite filter_cons_True.
  - by rewrite filter_cons_False.
Qed.

(** The four things a dispatched event can do to the store, the connected
    sockets and the outbox. *)
Lemma dispatch_cases e st :
  let st' := state_of (dispatch e st) in
  (messages st' = messages st ∧ sockets st' = sockets st ∧ outbox st' = outbox st)
  ∨ (∃ c, e = Connect c ∧ (c ∉ sockets st) ∧
       messages st' = messages st ∧ sockets st' = {[c]} ∪ sockets st ∧
       outbox st' = outbox st ++ [(c, load_messages (messages st))])
  ∨ (∃ c, e = Disconnect c ∧ c ∈ sockets st ∧
       messages st' = messages st ∧ sockets st' = sockets st ∖ {[c]} ∧
       outbox st' = outbox st)
  ∨ (∃ c now s, e = Submit c now (JsString s) ∧ c ∈ sockets st ∧
       (0 < length (trim s))%nat ∧
       let m := {| id := JsNumber now; text := JsString s |} in
       messages st' = messages st ++ [m] ∧ sockets st' = sockets st ∧
       outbox st' = outbox st ++ broadcast m st).
Proof.
  cbv zeta. unfold dispatch. destruct (deliverable e st) eqn:Hd; [|by left].
  destruct e as [c|c now msg|c]; cbn [handler deliverable] in *.
  - apply bool_decide_eq_true_1 in Hd. right; left. exists c.
    by rewrite onConnect_state.
  - apply bool_decide_eq_true_1 in Hd. unfold onSubmit.
    destruct (on_new_message_cases now msg st)
      as [(s & -> & Hs & ->)|[->|(_ & _ & ->)]]; [|by left..].
    right; right; right. exists c, now, s. done.
  - apply bool_decide_eq_true_1 in Hd. right; right; left. exists c.
    by rewrite onDisconnect_state.
Qed.

(** X1: the listener stores a payload exactly when it is a string with at
    least one code unit that is not white space; then the record holds the
    payload itself. Otherwise the store stays as it was. *)
Theorem stored_iff_some_non_space (now : Z) (msg : JsValue) (st : State) :
  let st' := state_of (onSubmit now msg st) in
  ((messages st' = messages st ++ [{| id := JsNumber now; text := msg |}])
   ↔ (∃ s, msg = JsString s ∧ existsb (λ c, negb (is_white_space c)) s = true)) ∧
  (messages st' = messages st ∨
   messages st' = messages st ++ [{| id := JsNumber now; text := msg |}]).
Proof.
  assert (Hblank : ∀ s, trim s = [] ↔ existsb (λ c, negb (is_white_space c)) s = false).
  { intros s. rewrite trim_nil_iff. split.
    - intros Hall. apply not_true_iff_false. intros (c & Hc & Hws)%existsb_exists.
      rewrite forallb_forall in Hall. rewrite (Hall c Hc) in Hws. done.
    - intros Hnone. apply forallb_forall. intros c Hc.
      destruct (is_white_space c) eqn:Hws; [done|].
      assert (existsb (λ c, negb (is_white_space c)) s = true) as Hex; [|congruence].
      apply existsb_exists. exists c. by rewrite Hws. }
  cbv zeta. unfold onSubmit.
  destruct (on_new_message_cases now msg st)
    as [(s & -> & Hs & ->)|[H|(Ht & Hs & H)]].
  - simpl. split; [|by right]. split; [|done]. intros _. exists s. split; [done|].
    destruct (existsb _ s) eqn:Hex; [done|]. apply Hblank in Hex.
    rewrite Hex in Hs. simpl in Hs. lia.
  - rewrite H. simpl. split; [|by left]. split.
    + intros Heq. apply (f_equal length) in Heq. rewrite length_app in Heq.
      simpl in Heq. lia.
    + intros (s & -> & Hex). exfalso.
      assert (0 < length (trim s))%nat as Hlen.
      { destruct (trim s) eqn:Ht; [|simpl; lia].
        apply Hblank in Ht. congruence. }
      rewrite (on_new_message_accepted now s st Hlen) in H.
      apply (f_equal (λ r, length (messages (state_of r)))) in H. simpl in H.
      rewrite length_app in H. simpl in H. lia.
  - rewrite H. simpl. split; [|by left]. split.
    + intros Heq. apply (f_equal length) in Heq. rewrite length_app in Heq.
      simpl in Heq. lia.
    + intros (s & -> & _). done.
Qed.

(** X2: whatever the server has sent agrees with its store: the backlog of
    every load_messages ever sent is a prefix of the store as it is now, and
    the record of every display_message ever sent is in the store. *)
Theorem sends_agree_with_store (events : list Event) :
  let st := run events initial in
  (∀ c backlog, (c, load_messages backlog) ∈ outbox st →
                backlog `prefix_of` messages st) ∧
  (∀ c m, (c, display_message m) ∈ outbox st → m ∈ messages st).
Proof.
  apply (run_invariant (λ st,
    (∀ c backlog, (c, load_messages backlog) ∈ outbox st →
                  backlog `prefix_of` messages st) ∧
    (∀ c m, (c, display_message m) ∈ outbox st → m ∈ messages st))).
  - intros e st [Hload Hdisp].
    destruct (dispatch_cases e st)
      as [(Hm & _ & Ho)|[(c0 & _ & _ & Hm & _ & Ho)|[(c0 & _ & _ & Hm & _ & Ho)
         |(c0 & now & s & _ & _ & _ & Hm & _ & Ho)]]];
      rewrite Hm, Ho; clear Hm Ho.
    + done.
    + split.
      * intros c b [Hin|Hin]%elem_of_app; [by eauto|].
        apply list_elem_of_singleton in Hin. by injection Hin as _ ->.
      * intros c m [Hin|Hin]%elem_of_app; [by eauto|].
        apply list_elem_of_singleton in Hin. discriminate.
    + done.
    + split.
      * intros c b [Hin|Hin]%elem_of_app; [by apply prefix_app_r; eauto|].
        apply list_elem_of_fmap in Hin as (? & [=] & _).
      * intros c m [Hin|Hin]%elem_of_app; apply elem_of_app; [left; by eauto|].
        apply list_elem_of_fmap in Hin as (? & [= _ ->] & _).
        right. by apply list_elem_of_singleton.
  - split; intros ? ? Hin; simpl in Hin; by apply elem_of_nil in Hin.
Qed.

Lemma never_connected_run c events :
  ∀ st, Connect c ∉ events → c ∉ sockets st → received c (outbox st) = [] →
        (c ∉ sockets (run events st)) ∧ received c (outbox (run events st)) = [].
Proof.
  induction events as [|e events IH]; intros st Hnot Hc Hrec; [done|].
  apply not_elem_of_cons in Hnot as [Hne Hnot]. rewrite run_cons.
  destruct (dispatch_cases e st)
    as [(_ & Hs & Ho)|[(c0 & -> & _ & _ & Hs & Ho)|[(c0 & _ & _ & _ & Hs & Ho)
       |(c0 & now & s & _ & _ & _ & _ & Hs & Ho)]]];
    apply IH; try done; rewrite ?Hs, ?Ho, ?received_app, ?Hrec; try done.
  - intros [->%elem_of_singleton|?]%elem_of_union; done.
  - rewrite received_single. rewrite decide_False; [done|]. congruence.
  - by intros [? _]%elem_of_difference.
  - unfold broadcast. rewrite received_broadcast. by rewrite decide_False.
Qed.

(** X3: in any run, the first event a socket ever receives is a
    load_messages, a connected socket has received one, and a socket that
    never connected has received nothing. *)
Theorem first_event_is_backlog (events : list Event) (c : SocketId) :
  let st := run events initial in
  backlog_first (received c (outbox st)) = true ∧
  (c ∈ sockets st → received c (outbox st) ≠ []) ∧
  (Connect c ∉ events → received c (outbox st) = []).
Proof.
  cbv zeta.
  enough (backlog_first (received c (outbox (run events initial))) = true ∧
          (c ∈ sockets (run events initial) →
           received c (outbox (run events initial)) ≠ [])) as [Hfirst Hconn].
  { split; [done|]. split; [done|]. intros Hnot. by apply never_connected_run. }
  apply (run_invariant (λ st,
    backlog_first (received c (outbox st)) = true ∧
    (c ∈ sockets st → received c (outbox st) ≠ []))); [|done].
  intros e st [Hfirst Hconn].
  assert (Hkeep : ∀ l, backlog_first (received c (outbox st) ++ l) = true ∨
                       received c (outbox st) = []).
  { intros l. destruct (received c (outbox st)) as [|[]]; auto. }
  destruct (dispatch_cases e st)
    as [(_ & Hs & Ho)|[(c0 & _ & Hc0 & _ & Hs & Ho)|[(c0 & _ & _ & _ & Hs & Ho)
       |(c0 & now & s & _ & _ & _ & _ & Hs & Ho)]]];
    rewrite Hs, Ho, ?received_app; clear Hs Ho.
  - done.
  - rewrite received_single. destruct (decide (c0 = c)) as [->|Hne].
    + split; [|by intros _ [_ ?]%app_nil].
      destruct (Hkeep [load_messages (messages st)]) as [?| ->]; done.
    + rewrite app_nil_r. split; [done|].
      intros [?%elem_of_singleton|?]%elem_of_union; [congruence|auto].
  - split; [done|]. intros [? _]%elem_of_difference. auto.
  - unfold broadcast. rewrite received_broadcast. case_decide.
    + split; [|by intros _ [_ ?]%app_nil].
      destruct (Hkeep [display_message {| id := JsNumber now; text := JsString s |}])
        as [?|Hnil]; [done|]. by apply Hconn in Hnil.
    + rewrite app_nil_r. done.
Qed.

Lemma dispatch_submit_accepted c now s st :
  c ∈ sockets st → (0 < length (trim s))%nat →
  dispatch (Submit c now (JsString s)) st
  = Normal () (stored {| id := JsNumber now; text := JsString s |}
                      (logged (JsString s) st)).
Proof.
  intros Hc Hs. unfold dispatch, deliverable. rewrite bool_decide_eq_true_2 by done.
  by apply on_new_message_accepted.
Qed.

(** X4: the id is the clock reading and nothing else, so ids can repeat:
    two non-blank submissions that a connected client makes at the same
    reading are both stored, in order, under the same id. *)
Theorem ids_can_repeat (st : State) (c : SocketId) (now : Z) (T1 T2 : js_string) :
  c ∈ sockets st →
  (0 < length (trim T1))%nat →
  (0 < length (trim T2))%nat →
  let st' := run [Submit c now (JsString T1); Submit c now (JsString T2)] st in
  ∃ m1 m2, messages st' = messages st ++ [m1; m2] ∧
           text m1 = JsString T1 ∧ text m2 = JsString T2 ∧ id m1 = id m2.
Proof.
  intros Hc H1 H2 st'. subst st'. unfold run. simpl.
  rewrite (dispatch_submit_accepted c now T1 st Hc H1). simpl.
  rewrite dispatch_submit_accepted by done. simpl.
  eexists _, _. rewrite <-app_assoc. done.
Qed.

Lemma ids_can_repeat_witness :
  ∃ m1 m2,
    messages (run [Submit "a" 7 (JsString (of_ascii "x"));
                   Submit "a" 7 (JsString (of_ascii "y"))]
                (run [Connect "a"] initial))
    = messages (run [Connect "a"] initial) ++ [m1; m2] ∧
    text m1 = JsString (of_ascii "x") ∧ text m2 = JsString (of_ascii "y") ∧
    id m1 = id m2.
Proof.
  apply (ids_can_repeat (run [Connect "a"] initial) "a" 7 (of_ascii "x") (of_ascii "y")).
  - by vm_compute.
  - vm_compute. lia.
  - vm_compute. lia.
Defined.

(** ** More on [trim] *)

Lemma trim_start_fixed c r : is_white_space c = false → trim_start (c :: r) = c :: r.
Proof. simpl. by intros ->. Qed.

Lemma trim_end_prefix s : trim_end s `prefix_of` s.
Proof.
  unfold trim_end. apply prefix_suffix_reverse. rewrite reverse_involutive.
  apply trim_start_suffix.
Qed.

Lemma trim_end_idem s : trim_end (trim_end s) = trim_end s.
Proof.
  unfold trim_end. rewrite reverse_involutive. f_equal.
  destruct (trim_start (reverse s)) as [|c r] eqn:Hs; [done|].
  apply trim_start_fixed. by apply trim_start_head in Hs.
Qed.

(** A string that begins with something other than white space still
    begins with it once its end is trimmed. *)
Lemma trim_end_keeps_head c r :
  is_white_space c = false → ∃ r', trim_end (c :: r) = c :: r'.
Proof.
  intros Hc. destruct (trim_end (c :: r)) as [|d r'] eqn:Hs.
  - unfold trim_end in Hs. apply (f_equal reverse) in Hs.
    rewrite reverse_involutive in Hs. apply trim_start_nil_iff in Hs.
    rewrite forallb_forall in Hs. rewrite (Hs c) in Hc; [done|].
    apply list_elem_of_In, elem_of_reverse. by left.
  - pose proof (trim_end_prefix (c :: r)) as [k Hk]. rewrite Hs in Hk.
    injection Hk as -> _. by exists r'.
Qed.

(** Trimming what is already trimmed changes nothing. *)
Lemma trim_idem s : trim (trim s) = trim s.
Proof.
  unfold trim at 2 3. destruct (trim_start s) as [|c r] eqn:Hs; [done|].
  apply trim_start_head in Hs.
  destruct (trim_end_keeps_head c r Hs) as [r' Hr]. unfold trim.
  rewrite Hr, (trim_start_fixed c r' Hs), <-Hr. apply trim_end_idem.
Qed.

(** ** The list of messages on the page *)

(** What [addMessageToList] of [app.js] does, case by case. *)
Lemma app_addMessageToList_state message p :
  AppJs.addMessageToList message p
  = match AppJs.shown_as message with
    | None =>
        Done () (set_console_calls
                   (λ cs, cs ++ [ErrorCall [JsString (of_ascii "Invalid message object received:");
                                            message]]) p)
    | Some item =>
        match messages_el p with
        | Some _ => Done () (set_scrolls S (set_messages_el (fmap (λ l, l ++ [item])) p))
        | None => Raised TypeError p
        end
    end.
Proof.
  unfold AppJs.addMessageToList, AppJs.invalid, AppJs.shown_as.
  destruct message as [| |[]|n|[|c s]|items|fields]; try reflexivity.
  - unfold truthy. destruct (n =? 0); reflexivity.
  - unfold truthy, negb, member, mbind, mret, Script_bind, Script_ret.
    destruct (own_property (of_ascii "text") fields); try reflexivity.
    simpl. unfold appendChild. destruct (messages_el p); reflexivity.
Qed.

(** What [addMessageToList] of [client.js] does, case by case. *)
Lemma client_addMessageToList_state message p :
  ClientJs.addMessageToList message p
  = match ClientJs.shown_as message with
    | None => Raised TypeError p
    | Some item =>
        match messages_el p with
        | Some _ => Done () (set_scrolls S (set_messages_el (fmap (λ l, l ++ [item])) p))
        | None => Raised TypeError p
        end
    end.
Proof.
  unfold ClientJs.addMessageToList, ClientJs.shown_as.
  destruct message; try reflexivity.
  all: unfold member, mbind, mret, Script_bind, Script_ret, appendChild, scrollTo.
  all: destruct (messages_el p); reflexivity.
Qed.

(** A record of the store with a string as text is shown as its item by
    both scripts. *)
Lemma app_shown_as_record m :
  is_string (text m) = true → AppJs.shown_as (to_object m) = Some (item_of m).
Proof. destruct m as [i t]. simpl. by destruct t. Qed.

Lemma client_shown_as_record m : ClientJs.shown_as (to_object m) = Some (item_of m).
Proof. by destruct m. Qed.

(** What [updateStatus] does: nothing without the status element;
    otherwise it shows the text and, for a positive delay, leaves a timer. *)
Lemma updateStatus_state text ms p :
  AppJs.updateStatus text ms p
  = Done ()
      match status_el p with
      | Some _ =>
          let shown := set_status_el (λ _, Some text) p in
          if bool_decide (0 < ms)
          then set_timers (λ ts, ts ++ [{| callback := ClearIfUnchanged text;
                                           delay := ms |}]) shown
          else shown
      | None => p
      end.
Proof.
  unfold AppJs.updateStatus, has_status_el, set_status, setTimeout,
    mbind, mret, Script_bind, Script_ret.
  destruct (status_el p) eqn:Hs; simpl; [|done]. rewrite Hs.
  by destruct (bool_decide (0 < ms)).
Qed.

Lemma updateStatus_keeps_list text ms p :
  messages_el (page_of (AppJs.updateStatus text ms p)) = messages_el p.
Proof.
  rewrite updateStatus_state. simpl.
  destruct (status_el p); [|done]. by destruct (bool_decide (0 < ms)).
Qed.

(** What a firing timer does: with the status element missing its callback
    throws; otherwise the status is emptied, by [app.js]'s callback only if
    it still shows the callback's text. *)
Lemma fire_state i p :
  fire i p
  = match timers p !! i with
    | None => Done () p
    | Some t =>
        let rest := set_timers (delete i) p in
        match status_el p with
        | None => Raised TypeError rest
        | Some shown =>
            match callback t with
            | ClearIfUnchanged text =>
                if decide (shown = text)
                then Done () (set_status_el (λ _, Some []) rest)
                else Done () rest
            | ClearAlways => Done () (set_status_el (λ _, Some []) rest)
            end
        end
    end.
Proof.
  unfold fire. destruct (timers p !! i) as [[cb ms]|]; [|done].
  unfold run_callback, get_status, set_status, mbind, mret, Script_bind, Script_ret.
  destruct cb as [text|]; simpl; destruct (status_el p) as [shown|] eqn:Hs;
    try done.
  destruct (decide (shown = text)); simpl; by rewrite ?Hs.
Qed.

Lemma fire_keeps_list i p : messages_el (page_of (fire i p)) = messages_el p.
Proof.
  rewrite fire_state. destruct (timers p !! i) as [[cb ms]|]; [|done].
  simpl. destruct (status_el p) as [shown|]; [|done].
  destruct cb as [text|]; [|done]. by destruct (decide (shown = text)).
Qed.

Lemma app_on_submit_keeps_list p :
  messages_el (page_of (AppJs.on_submit p)) = messages_el p.
Proof.
  unfold AppJs.on_submit, AppJs.listening.
  destruct (form_el p); simpl; [|done].
  destruct (input_el p) as [input|] eqn:Hin; simpl; [|done].
  unfold get_input_value, mbind, Script_bind. rewrite Hin.
  destruct (trim (value input)) as [|c t]; simpl; [done|].
  unfold emit_new_message, set_input_value. simpl. rewrite Hin.
  rewrite updateStatus_state. unfold focus_input. simpl.
  by destruct (status_el p).
Qed.

(** The listeners that report on the connection: a console line, then the
    status. *)
Lemma app_on_connect_state socket_id p :
  AppJs.on_connect socket_id p
  = AppJs.updateStatus (of_ascii "Connected.") 2000
      (set_console_calls
         (λ cs, cs ++ [LogCall [JsString (of_ascii "Connected to server:"); socket_id]]) p).
Proof. reflexivity. Qed.

Lemma app_on_disconnect_state reason p :
  AppJs.on_disconnect reason p
  = AppJs.updateStatus (of_ascii "Disconnected from server.") 0
      (set_console_calls
         (λ cs, cs ++ [LogCall [JsString (of_ascii "Disconnected from server:"); reason]]) p).
Proof. reflexivity. Qed.

Lemma app_on_connect_error_state err_message p :
  AppJs.on_connect_error err_message p
  = AppJs.updateStatus (of_ascii "Connection failed: " ++ err_message) 0
      (set_console_calls
         (λ cs, cs ++ [ErrorCall [JsString (of_ascii "Connection failed:");
                                  JsString err_message]]) p).
Proof. reflexivity. Qed.

Lemma app_on_reconnect_attempt_state n p :
  AppJs.on_reconnect_attempt n p
  = AppJs.updateStatus (of_ascii "Trying to reconnect (" ++ decimal n ++ of_ascii ")...") 0
      (set_console_calls
         (λ cs, cs ++ [LogCall [JsString (of_ascii "Reconnection attempt " ++ decimal n
                                          ++ of_ascii "...")]]) p).
Proof. reflexivity. Qed.

Lemma app_on_reconnect_state n p :
  AppJs.on_reconnect n p
  = AppJs.updateStatus (of_ascii "Reconnected.") 2000
      (set_console_calls
         (λ cs, cs ++ [LogCall [JsString (of_ascii "Successfully reconnected after "
                                          ++ decimal n ++ of_ascii " attempts.")]]) p).
Proof. reflexivity. Qed.

Lemma app_on_reconnect_failed_state p :
  AppJs.on_reconnect_failed p
  = AppJs.updateStatus (of_ascii "Could not reconnect to the server.") 0
      (set_console_calls
         (λ cs, cs ++ [ErrorCall [JsString (of_ascii "Reconnection failed.")]]) p).
Proof. reflexivity. Qed.

(** Only the server's events touch the list of messages. *)
Lemma app_other_events_keep_list e p :
  (∀ ev, e ≠ AppJs.FromServer ev) →
  messages_el (page_of (AppJs.handle e p)) = messages_el p.
Proof.
  intros Hne. destruct e; simpl; try done.
  - apply app_on_submit_keeps_list.
  - by rewrite app_on_connect_state, updateStatus_keeps_list.
  - by destruct (Hne ev).
  - by rewrite app_on_disconnect_state, updateStatus_keeps_list.
  - by rewrite app_on_connect_error_state, updateStatus_keeps_list.
  - by rewrite app_on_reconnect_attempt_state, updateStatus_keeps_list.
  - by rewrite app_on_reconnect_state, updateStatus_keeps_list.
  - by rewrite app_on_reconnect_failed_state, updateStatus_keeps_list.
  - apply fire_keeps_list.
Qed.

(** [forEach] of [app.js]'s [addMessageToList]: the entries that are
    shown are appended in order, the others are skipped. *)
Lemma app_forEach_list entries :
  ∀ p l, messages_el p = Some l →
    ∃ p', forEach AppJs.addMessageToList entries p = Done () p' ∧
          messages_el p' = Some (l ++ omap AppJs.shown_as entries).
Proof.
  induction entries as [|x entries IH]; intros p l Hl.
  - exists p. by rewrite app_nil_r.
  - simpl. unfold mbind, Script_bind. rewrite app_addMessageToList_state.
    destruct (AppJs.shown_as x) as [item|].
    + rewrite Hl.
      destruct (IH (set_scrolls S (set_messages_el (fmap (λ l, l ++ [item])) p))
                  (l ++ [item])) as (p' & -> & Hp'); [simpl; by rewrite Hl|].
      exists p'. by rewrite <-app_assoc in Hp'.
    + destruct (IH (set_console_calls
                      (λ cs, cs ++ [ErrorCall [JsString (of_ascii "Invalid message object received:"); x]]) p) l)
        as (p' & -> & Hp'); [done|]. by exists p'.
Qed.

Lemma omap_shown_as_records backlog :
  Forall (λ m, is_string (text m) = true) backlog →
  omap AppJs.shown_as (to_object <$> backlog) = item_of <$> backlog.
Proof.
  induction 1 as [|m backlog Hm _ IH]; [done|].
  destruct m as [i t]. destruct t; try done. simpl. f_equal. exact IH.
Qed.

(** [app.js] on a backlog: it never throws; with the list element there,
    the list becomes the shown entries of the array, or empty for a payload
    that is not an array. *)
Lemma app_on_load_messages_list v p :
  completes (AppJs.on_load_messages v p) = true ∧
  messages_el (page_of (AppJs.on_load_messages v p))
  = match messages_el p with
    | None => None
    | Some _ => Some match v with
                     | JsArray entries => omap AppJs.shown_as entries
                     | _ => []
                     end
    end.
Proof.
  unfold AppJs.on_load_messages, mbind, Script_bind, console_call,
    has_messages_el, clear_messages_el.
  destruct (messages_el p) as [l|] eqn:Hl; simpl; rewrite ?Hl; simpl;
    rewrite ?Hl; simpl; [|done].
  destruct v as [| | | | |entries|]; try done.
  destruct (app_forEach_list entries
              (set_messages_el (λ _, Some [])
                 (set_console_calls
                    (λ cs, cs ++ [LogCall [JsString (of_ascii "Loading existing messages:");
                                           JsArray entries]]) p)) [])
    as (p' & -> & Hp'); [done|]. done.
Qed.

(** [app.js] on a new record: the entry is appended if it is shown; the
    call throws only when it is shown and the list element is missing. *)
Lemma app_on_display_message_list message p :
  completes (AppJs.on_display_message message p)
  = present (messages_el p) || negb (present (AppJs.shown_as message)) ∧
  messages_el (page_of (AppJs.on_display_message message p))
  = (λ l, l ++ option_list (AppJs.shown_as message)) <$> messages_el p.
Proof.
  unfold AppJs.on_display_message, mbind, Script_bind, console_call.
  rewrite app_addMessageToList_state.
  destruct (AppJs.shown_as message) as [item|]; simpl;
    destruct (messages_el p) as [l|] eqn:Hl; simpl; rewrite ?Hl, ?app_nil_r; done.
Qed.

(** What a server event does to the list under [app.js]. *)
Lemma app_server_event_list ev p l :
  messages_el p = Some l →
  Forall (λ m, is_string (text m) = true) (records ev) →
  messages_el (page_of (AppJs.on_server_event ev p)) = Some (view_step l ev).
Proof.
  intros Hl Hstr. destruct ev as [backlog|m]; unfold AppJs.on_server_event, payload.
  - destruct (app_on_load_messages_list (JsArray (to_object <$> backlog)) p) as [_ ->].
    rewrite Hl. simpl. by rewrite omap_shown_as_records.
  - destruct (app_on_display_message_list (to_object m) p) as [_ ->].
    simpl in Hstr. apply Forall_cons in Hstr as [Hm _].
    rewrite Hl. by rewrite app_shown_as_record.
Qed.

Lemma app_play_cons e pevs p :
  AppJs.play (e :: pevs) p = AppJs.play pevs (page_of (AppJs.handle e p)).
Proof. reflexivity. Qed.

(** Under [app.js] the list follows the server's events, whatever else
    happens on the page in between. *)
Lemma app_play_list pevs :
  ∀ p l,
    messages_el p = Some l →
    Forall (λ ev, Forall (λ m, is_string (text m) = true) (records ev))
           (AppJs.from_server pevs) →
    messages_el (AppJs.play pevs p) = Some (view_after (AppJs.from_server pevs) l).
Proof.
  induction pevs as [|e pevs IH]; intros p l Hl Hstr; [done|].
  rewrite app_play_cons.
  assert (Hkind : (∃ ev, e = AppJs.FromServer ev) ∨ ∀ ev, e ≠ AppJs.FromServer ev).
  { destruct e; try (by right); left; eauto. }
  destruct Hkind as [[ev ->]|Hother].
  - unfold AppJs.from_server in *. simpl in *.
    apply Forall_cons in Hstr as [Hev Hstr].
    apply IH; [|done]. by apply app_server_event_list.
  - assert (AppJs.from_server (e :: pevs) = AppJs.from_server pevs) as Heq.
    { destruct e; try done. by destruct (Hother ev). }
    rewrite Heq in *. apply IH; [|done].
    by rewrite app_other_events_keep_list.
Qed.

(** [forEach] of [client.js]'s [addMessageToList]: the entries up to the
    first one that is [null] or [undefined] are appended; at that one the
    call throws. *)
Lemma client_forEach_list entries :
  ∀ p l, messages_el p = Some l →
    ∃ p', messages_el p' = Some (l ++ ClientJs.shown_before_failure entries) ∧
          forEach ClientJs.addMessageToList entries p
          = if forallb (λ x, present (ClientJs.shown_as x)) entries
            then Done () p' else Raised TypeError p'.
Proof.
  induction entries as [|x entries IH]; intros p l Hl.
  - exists p. by rewrite app_nil_r.
  - simpl. unfold mbind, Script_bind. rewrite client_addMessageToList_state.
    destruct (ClientJs.shown_as x) as [item|] eqn:Hx; simpl.
    + rewrite Hl.
      destruct (IH (set_scrolls S (set_messages_el (fmap (λ l, l ++ [item])) p))
                  (l ++ [item])) as (p' & Hp' & ->); [simpl; by rewrite Hl|].
      exists p'. by rewrite <-app_assoc in Hp'.
    + exists p. by rewrite app_nil_r.
Qed.

Lemma client_records_shown backlog :
  forallb (λ x, present (ClientJs.shown_as x)) (to_object <$> backlog) = true ∧
  ClientJs.shown_before_failure (to_object <$> backlog) = item_of <$> backlog.
Proof.
  induction backlog as [|m backlog [IH1 IH2]]; [done|].
  destruct m as [i t]. simpl. split; [exact IH1 | f_equal; exact IH2].
Qed.

(** [client.js] on a backlog: the list element missing, or a payload that
    is not an array, makes it throw; on an array it shows the entries up to
    the first [null] or [undefined] one, where it throws. *)
Lemma client_on_load_messages_list v p l :
  messages_el p = Some l →
  match v with
  | JsArray entries =>
      completes (ClientJs.on_load_messages v p)
      = forallb (λ x, present (ClientJs.shown_as x)) entries ∧
      messages_el (page_of (ClientJs.on_load_messages v p))
      = Some (ClientJs.shown_before_failure entries)
  | _ =>
      completes (ClientJs.on_load_messages v p) = false ∧
      messages_el (page_of (ClientJs.on_load_messages v p)) = Some []
  end.
Proof.
  intros Hl. unfold ClientJs.on_load_messages, mbind, Script_bind, clear_messages_el.
  rewrite Hl. destruct v as [| | | | |entries|]; try done.
  destruct (client_forEach_list entries (set_messages_el (λ _, Some []) p) [])
    as (p' & Hp' & ->); [done|].
  by destruct (forallb _ entries).
Qed.

(** What a server event does to the list under [client.js]. *)
Lemma client_server_event_list ev p l :
  messages_el p = Some l →
  completes (ClientJs.on_server_event ev p) = true ∧
  messages_el (page_of (ClientJs.on_server_event ev p)) = Some (view_step l ev).
Proof.
  intros Hl. destruct ev as [backlog|m]; unfold ClientJs.on_server_event, payload.
  - pose proof (client_on_load_messages_list (JsArray (to_object <$> backlog)) p l Hl)
      as [-> ->].
    by destruct (client_records_shown backlog) as [-> ->].
  - unfold ClientJs.on_display_message.
    rewrite client_addMessageToList_state, client_shown_as_record, Hl. simpl.
    by rewrite Hl.
Qed.

Lemma client_play_list evs :
  ∀ p l, messages_el p = Some l →
         messages_el (ClientJs.play evs p) = Some (view_after evs l).
Proof.
  induction evs as [|ev evs IH]; intros p l Hl; [done|].
  apply IH. by apply client_server_event_list.
Qed.

Lemma view_after_app evs1 evs2 shown :
  view_after (evs1 ++ evs2) shown = view_after evs2 (view_after evs1 shown).
Proof. apply foldl_app. Qed.

(** What a connected socket has received amounts to the store: the last
    backlog it was sent, followed by the records broadcast since. *)
Lemma received_amounts_to_store events :
  let st := run events initial in
  ∀ c shown, c ∈ sockets st →
             view_after (received c (outbox st)) shown = item_of <$> messages st.
Proof.
  apply (run_invariant (λ st, ∀ c shown, c ∈ sockets st →
           view_after (received c (outbox st)) shown = item_of <$> messages st));
    [|by intros c shown ?%not_elem_of_empty].
  intros e st Hst c shown.
  destruct (dispatch_cases e st)
    as [(Hm & Hs & Ho)|[(c0 & _ & Hc0 & Hm & Hs & Ho)|[(c0 & _ & _ & Hm & Hs & Ho)
       |(c0 & now & s & _ & _ & _ & Hm & Hs & Ho)]]];
    rewrite Hm, Hs, Ho, ?received_app, ?view_after_app; clear Hm Hs Ho.
  - auto.
  - rewrite received_single. destruct (decide (c0 = c)) as [->|Hne]; [done|].
    intros [?%elem_of_singleton|?]%elem_of_union; [congruence|]. simpl. auto.
  - intros [? _]%elem_of_difference. auto.
  - intros Hc. unfold broadcast. rewrite received_broadcast, decide_True by done.
    simpl. rewrite fmap_app. f_equal. auto.
Qed.

(** Every record the server holds or has sent has a string as text. *)
Lemma run_texts_are_strings events :
  let st := run events initial in
  Forall (λ m, is_string (text m) = true) (messages st) ∧
  ∀ c ev, (c, ev) ∈ outbox st →
          Forall (λ m, is_string (text m) = true) (records ev).
Proof.
  apply (run_invariant (λ st,
    Forall (λ m, is_string (text m) = true) (messages st) ∧
    ∀ c ev, (c, ev) ∈ outbox st →
            Forall (λ m, is_string (text m) = true) (records ev)));
    [|split; [done|]; by intros c ev ?%elem_of_nil].
  intros e st [Hst Hout].
  destruct (dispatch_cases e st)
    as [(Hm & _ & Ho)|[(c0 & _ & _ & Hm & _ & Ho)|[(c0 & _ & _ & Hm & _ & Ho)
       |(c0 & now & s & _ & _ & _ & Hm & _ & Ho)]]];
    rewrite Hm, Ho; clear Hm Ho.
  - done.
  - split; [done|]. intros c ev [Hin|Hin]%elem_of_app; [by eauto|].
    apply list_elem_of_singleton in Hin. by injection Hin as _ ->.
  - done.
  - split; [apply Forall_app; split; [done|by apply Forall_singleton]|].
    intros c ev [Hin|Hin]%elem_of_app; [by eauto|].
    apply list_elem_of_fmap in Hin as (? & [= _ ->] & _). by apply Forall_singleton.
Qed.

Lemma elem_of_received c ev sends : ev ∈ received c sends → (c, ev) ∈ sends.
Proof.
  unfold received. intros ([c' ev'] & -> & Hin)%list_elem_of_fmap.
  apply list_elem_of_filter in Hin as [Hc Hin]. simpl in Hc. by subst c'.
Qed.

(** X5: under [app.js] a connected viewer shows the store.  Take any run
    of the server and a socket connected at its end, and any sequence of
    page events (typing, submitting, connection reports, timers) among
    which the server's events are those the socket received, in order.  If
    the page has the list element, the list then holds one item per stored
    record, in the store's order, whatever it held before. *)
Theorem app_view_is_store (events : list Event) (c : SocketId)
    (pevs : list AppJs.PageEvent) (p : Page) :
  c ∈ sockets (run events initial) →
  is_Some (messages_el p) →
  AppJs.from_server pevs = received c (outbox (run events initial)) →
  messages_el (AppJs.play pevs p) = Some (item_of <$> messages (run events initial)).
Proof.
  intros Hc [l Hl] Hpevs.
  rewrite (app_play_list pevs p l Hl).
  - rewrite Hpevs. f_equal. by apply received_amounts_to_store.
  - rewrite Hpevs. apply Forall_forall. intros ev Hev%elem_of_received.
    by eapply (proj2 (run_texts_are_strings events)).
Qed.

(** X6: under [client.js] a connected viewer shows the store.  For any run
    of the server and a socket connected at its end, a page with the list
    element that handles what the socket received, in order, ends with one
    item per stored record, in the store's order, whatever it held before. *)
Theorem client_view_is_store (events : list Event) (c : SocketId) (p : Page) :
  c ∈ sockets (run events initial) →
  is_Some (messages_el p) →
  messages_el (ClientJs.play (received c (outbox (run events initial))) p)
  = Some (item_of <$> messages (run events initial)).
Proof.
  intros Hc [l Hl]. rewrite (client_play_list _ p l Hl). f_equal.
  by apply received_amounts_to_store.
Qed.

Lemma app_view_is_store_witness :
  messages_el
    (AppJs.play
       [AppJs.FromServer (load_messages []); AppJs.SocketConnect (JsString (of_ascii "a"));
        AppJs.UserTypes (of_ascii "hi"); AppJs.FormSubmit; AppJs.TimerFires 0;
        AppJs.FromServer
          (display_message {| id := JsNumber 1; text := JsString (of_ascii "hi") |})]
       {| messages_el := Some [{| textContent := JsNull; data_id := JsNull |}];
          form_el := true; input_el := Some {| value := []; focused := false |};
          status_el := Some []; timers := []; emitted := []; scrolls := 0;
          console_calls := [] |})
  = Some (item_of <$> messages (run [Connect "a"; Submit "a" 1 (JsString (of_ascii "hi"))]
                                    initial)).
Proof.
  apply (app_view_is_store
           [Connect "a"; Submit "a" 1 (JsString (of_ascii "hi"))] "a").
  - by vm_compute.
  - by eexists.
  - by vm_compute.
Defined.

Lemma client_view_is_store_witness :
  messages_el
    (ClientJs.play
       (received "b" (outbox (run [Connect "a"; Submit "a" 1 (JsString (of_ascii "x"));
                                   Connect "b"; Submit "a" 2 (JsString (of_ascii "y"))]
                                initial)))
       {| messages_el := Some [{| textContent := JsNull; data_id := JsNull |}];
          form_el := false; input_el := None; status_el := None; timers := [];
          emitted := []; scrolls := 0; console_calls := [] |})
  = Some (item_of <$> messages (run [Connect "a"; Submit "a" 1 (JsString (of_ascii "x"));
                                     Connect "b"; Submit "a" 2 (JsString (of_ascii "y"))]
                                    initial)).
Proof.
  apply (client_view_is_store
           [Connect "a"; Submit "a" 1 (JsString (of_ascii "x"));
            Connect "b"; Submit "a" 2 (JsString (of_ascii "y"))] "b").
  - by vm_compute.
  - by eexists.
Defined.





(** ** Submitting from the pages *)

(** What the form listener of [app.js] does when it is installed. *)
Lemma app_on_submit_state p input :
  AppJs.listening p = true → input_el p = Some input →
  AppJs.on_submit p
  = match trim (value input) with
    | [] => Done () p
    | messageText =>
        let sent := set_emitted (λ out, out ++ [JsString messageText]) p in
        let cleared :=
          set_input_el (λ _, Some {| value := []; focused := focused input |}) sent in
        let reported :=
          page_of (AppJs.updateStatus (of_ascii "Message sent!") 2000 cleared) in
        Done () (set_input_el (λ _, Some {| value := []; focused := true |}) reported)
    end.
Proof.
  intros Hon Hin. unfold AppJs.on_submit. rewrite Hon.
  unfold get_input_value, mbind, Script_bind. rewrite Hin.
  destruct (trim (value input)) as [|c t]; [done|]. simpl.
  unfold emit_new_message, set_input_value. simpl. rewrite Hin.
  rewrite updateStatus_state. simpl. unfold focus_input.
  destruct (status_el p); simpl; by rewrite ?Hin.
Qed.

Lemma accepts_trimmed t : t ≠ [] → trim t = t → accepts (JsString t) = true.
Proof.
  intros Hne Ht. unfold accepts. rewrite validation_string, Ht.
  apply bool_decide_eq_true_2. destruct t; [done|simpl; lia].
Qed.

(** X10: the form listener of [app.js] never throws and sends at most one
    payload: the trimmed value of the input, and only if that is not empty.
    Whatever it sends passes the server's check, so a connected sender's
    record is stored with exactly that text, which trimming leaves as it is. *)
Theorem app_submit_is_always_stored (p : Page) :
  let p' := page_of (AppJs.on_submit p) in
  let sent := drop (length (emitted p)) (emitted p') in
  completes (AppJs.on_submit p) = true ∧
  emitted p' = emitted p ++ sent ∧
  sent = match input_el p with
         | Some input =>
             if AppJs.listening p && truthy (JsString (trim (value input)))
             then [JsString (trim (value input))] else []
         | None => []
         end ∧
  ∀ msg, msg ∈ sent →
    accepts msg = true ∧
    ∃ t, msg = JsString t ∧ trim t = t ∧
         ∀ st c now, c ∈ sockets st →
           messages (state_of (dispatch (Submit c now msg) st))
           = messages st ++ [{| id := JsNumber now; text := JsString t |}].
Proof.
  cbv zeta.
  assert (Hcases :
    (AppJs.on_submit p = Done () p ∧
     match input_el p with
     | Some input => AppJs.listening p && truthy (JsString (trim (value input))) = false
     | None => True
     end)
    ∨ ∃ input c t p',
        input_el p = Some input ∧ AppJs.listening p = true ∧
        trim (value input) = c :: t ∧ AppJs.on_submit p = Done () p' ∧
        emitted p' = emitted p ++ [JsString (c :: t)]).
  { destruct (AppJs.listening p) eqn:Hon.
    - destruct (input_el p) as [input|] eqn:Hin.
      + rewrite (app_on_submit_state p input Hon Hin).
        destruct (trim (value input)) as [|c t] eqn:Ht; [by left|].
        right. eexists input, c, t, _. repeat split; [done|].
        rewrite updateStatus_state. simpl.
        by destruct (status_el p).
      + unfold AppJs.listening in Hon. rewrite Hin in Hon.
        by destruct (form_el p).
    - left. unfold AppJs.on_submit. rewrite Hon. by destruct (input_el p). }
  destruct Hcases as [[-> Hnone]|(input & c & t & p' & Hin & Hon & Ht & -> & Hem)].
  - cbn [page_of completes]. rewrite drop_all, app_nil_r.
    split; [done|]. split; [done|]. split; [|by intros msg ?%elem_of_nil].
    destruct (input_el p); [by rewrite Hnone|done].
  - cbn [page_of completes]. rewrite Hem, drop_app_length, Hin, Hon, Ht. simpl.
    split; [done|]. split; [done|]. split; [done|].
    intros msg ->%list_elem_of_singleton.
    assert (trim (c :: t) = c :: t) as Hfix by (rewrite <-Ht; apply trim_idem).
    split; [by apply accepts_trimmed|].
    exists (c :: t). split; [done|]. split; [done|]. intros st d now Hd.
    rewrite dispatch_submit_accepted; [done..|]. rewrite Hfix. simpl. lia.
Qed.

(** What the form listener of [submit.js] does on a page with the form,
    the input and the status element. *)
Lemma submit_on_submit_state p input shown :
  form_el p = true → input_el p = Some input → status_el p = Some shown →
  SubmitJs.on_submit p
  = match value input with
    | [] => Done () p
    | v =>
        Done ()
          (set_timers (λ ts, ts ++ [{| callback := ClearAlways; delay := 2000 |}])
             (set_status_el (λ _, Some (of_ascii "Message sent!"))
                (set_input_el (λ _, Some {| value := []; focused := focused input |})
                   (set_emitted (λ out, out ++ [JsString v]) p))))
    end.
Proof.
  intros Hform Hin Hst. unfold SubmitJs.on_submit, SubmitJs.installed.
  rewrite Hform. unfold get_input_value, mbind, Script_bind. rewrite Hin.
  destruct (value input) as [|c v]; [done|]. simpl.
  unfold emit_new_message, set_input_value, set_status, setTimeout. simpl.
  rewrite Hin. simpl. by rewrite Hst.
Qed.

(** X11: [submit.js] sends the input as it is whenever it is not empty.
    When it is made of white space only, the page still clears the input
    and reports the message as sent, while the server, for any state and
    sender, stores nothing and sends nothing. *)
Theorem submit_page_reports_dropped_text (p : Page) (input : Input) (shown : js_string) :
  form_el p = true →
  input_el p = Some input →
  status_el p = Some shown →
  value input ≠ [] →
  forallb is_white_space (value input) = true →
  let p' := page_of (SubmitJs.on_submit p) in
  completes (SubmitJs.on_submit p) = true ∧
  emitted p' = emitted p ++ [JsString (value input)] ∧
  status_el p' = Some (of_ascii "Message sent!") ∧
  value <$> input_el p' = Some [] ∧
  ∀ st c now,
    let submit := dispatch (Submit c now (JsString (value input))) in
    returns (submit st) = true ∧
    messages (state_of (submit st)) = messages st ∧
    sent_by submit st = [].
Proof.
  intros Hform Hin Hst Hne Hblank p'. subst p'.
  rewrite (submit_on_submit_state p input shown Hform Hin Hst).
  destruct (value input) as [|u v] eqn:Hv; [done|]. cbn [page_of completes].
  split; [done|]. split; [done|]. split; [done|]. split; [done|].
  intros st c now.
  assert (Hdrop : onSubmit now (JsString (u :: v)) st
                  = Normal () (logged (JsString (u :: v)) st)).
  { apply on_new_message_dropped. rewrite validation_string.
    apply trim_nil_iff in Hblank. by rewrite Hblank. }
  unfold dispatch, sent_by. cbn [handler].
  destruct (deliverable _ st); rewrite ?Hdrop; simpl; by rewrite drop_all.
Qed.

Lemma submit_page_reports_dropped_text_witness :
  let p := {| messages_el := None; form_el := true;
              input_el := Some {| value := of_ascii "   "; focused := true |};
              status_el := Some []; timers := []; emitted := []; scrolls := 0;
              console_calls := [] |} in
  let p' := page_of (SubmitJs.on_submit p) in
  completes (SubmitJs.on_submit p) = true ∧
  emitted p' = emitted p ++ [JsString (of_ascii "   ")] ∧
  status_el p' = Some (of_ascii "Message sent!") ∧
  value <$> input_el p' = Some [] ∧
  ∀ st c now,
    let submit := dispatch (Submit c now (JsString (of_ascii "   "))) in
    returns (submit st) = true ∧
    messages (state_of (submit st)) = messages st ∧
    sent_by submit st = [].
Proof.
  apply (submit_page_reports_dropped_text
           {| messages_el := None; form_el := true;
              input_el := Some {| value := of_ascii "   "; focused := true |};
              status_el := Some []; timers := []; emitted := []; scrolls := 0;
              console_calls := [] |}
           {| value := of_ascii "   "; focused := true |} []);
    try reflexivity.
  discriminate.
Defined.

(** ** The status line and its timers *)

Lemma updateStatus_timers text ms p :
  timers (page_of (AppJs.updateStatus text ms p))
  = timers p ++ (if present (status_el p) && bool_decide (0 < ms)
                 then [{| callback := ClearIfUnchanged text; delay := ms |}] else []) ∧
  status_el (page_of (AppJs.updateStatus text ms p)) = (λ _, text) <$> status_el p.
Proof.
  rewrite updateStatus_state. simpl.
  destruct (status_el p) as [shown|] eqn:Hs; simpl; [|by rewrite Hs, app_nil_r].
  destruct (bool_decide (0 < ms)); simpl; by rewrite ?Hs, ?app_nil_r.
Qed.

Lemma app_addMessageToList_keeps_status message p :
  timers (page_of (AppJs.addMessageToList message p)) = timers p ∧
  status_el (page_of (AppJs.addMessageToList message p)) = status_el p.
Proof.
  rewrite app_addMessageToList_state.
  destruct (AppJs.shown_as message); [|done]. by destruct (messages_el p).
Qed.

Lemma app_forEach_keeps_status entries :
  ∀ p, timers (page_of (forEach AppJs.addMessageToList entries p)) = timers p ∧
       status_el (page_of (forEach AppJs.addMessageToList entries p)) = status_el p.
Proof.
  induction entries as [|x entries IH]; intros p; [done|].
  simpl. unfold mbind, Script_bind.
  destruct (app_addMessageToList_keeps_status x p) as [Ht Hs].
  destruct (AppJs.addMessageToList x p) as [[] q|err q]; simpl in *; [|done].
  destruct (IH q) as [-> ->]. done.
Qed.

(** The server's events leave the status line and the timers alone. *)
Lemma app_server_event_keeps_status ev p :
  timers (page_of (AppJs.on_server_event ev p)) = timers p ∧
  status_el (page_of (AppJs.on_server_event ev p)) = status_el p.
Proof.
  destruct ev as [backlog|m]; unfold AppJs.on_server_event, payload.
  - unfold AppJs.on_load_messages, mbind, Script_bind, console_call,
      has_messages_el, clear_messages_el.
    destruct (messages_el p) as [l|] eqn:Hl; simpl; rewrite ?Hl; simpl;
      rewrite ?Hl; simpl; [|done].
    by destruct (app_forEach_keeps_status (to_object <$> backlog)
                   (set_messages_el (λ _, Some [])
                      (set_console_calls
                         (λ cs, cs ++ [LogCall [JsString (of_ascii "Loading existing messages:");
                                                JsArray (to_object <$> backlog)]]) p)))
      as [-> ->].
  - unfold AppJs.on_display_message, mbind, Script_bind, console_call.
    by destruct (app_addMessageToList_keeps_status (to_object m)
                   (set_console_calls
                      (λ cs, cs ++ [LogCall [JsString (of_ascii "New message received:");
                                             to_object m]]) p)) as [-> ->].
Qed.

Lemma app_on_submit_timers p :
  timers (page_of (AppJs.on_submit p)) = timers p
  ∨ timers (page_of (AppJs.on_submit p))
    = timers p ++ [{| callback := ClearIfUnchanged (of_ascii "Message sent!");
                      delay := 2000 |}].
Proof.
  destruct (AppJs.listening p) eqn:Hon.
  - destruct (input_el p) as [input|] eqn:Hin.
    + rewrite (app_on_submit_state p input Hon Hin).
      destruct (trim (value input)) as [|c t]; [by left|]. simpl.
      rewrite updateStatus_state. simpl. destruct (status_el p); [by right|by left].
    + unfold AppJs.listening in Hon. rewrite Hin in Hon. by destruct (form_el p).
  - left. unfold AppJs.on_submit. by rewrite Hon.
Qed.

Lemma timers_are_passing_snoc p q text ms :
  text ∈ AppJs.passing_texts →
  timers q = timers p ++ (if present (status_el p) && bool_decide (0 < ms)
                          then [{| callback := ClearIfUnchanged text; delay := ms |}]
                          else []) →
  AppJs.timers_are_passing p → AppJs.timers_are_passing q.
Proof.
  unfold AppJs.timers_are_passing. intros Htext -> Hp.
  apply Forall_app. split; [done|].
  destruct (_ && _); [|done]. apply Forall_singleton. eauto.
Qed.

(** Whatever happens on the page, the pending timers are those of passing
    texts. *)
Lemma app_handle_keeps_timers_passing e p :
  AppJs.timers_are_passing p → AppJs.timers_are_passing (page_of (AppJs.handle e p)).
Proof.
  intros Hp.
  assert (Hsame : ∀ q, timers q = timers p → AppJs.timers_are_passing q).
  { unfold AppJs.timers_are_passing. by intros q ->. }
  assert (Hnone : ∀ text q,
            timers (page_of (AppJs.updateStatus text 0 q)) = timers q).
  { intros text q. destruct (updateStatus_timers text 0 q) as [-> _].
    rewrite andb_false_r. apply app_nil_r. }
  destruct e; simpl.
  - by apply Hsame.
  - destruct (app_on_submit_timers p) as [H|H]; [by apply Hsame|].
    unfold AppJs.timers_are_passing. rewrite H. apply Forall_app. split; [done|].
    apply Forall_singleton. eexists. split; [done|]. set_solver.
  - rewrite app_on_connect_state.
    eapply (timers_are_passing_snoc _ _ (of_ascii "Connected.") 2000);
      [set_solver|apply updateStatus_timers|by apply Hsame].
  - apply Hsame. apply app_server_event_keeps_status.
  - rewrite app_on_disconnect_state. apply Hsame. by rewrite Hnone.
  - rewrite app_on_connect_error_state. apply Hsame. by rewrite Hnone.
  - rewrite app_on_reconnect_attempt_state. apply Hsame. by rewrite Hnone.
  - rewrite app_on_reconnect_state.
    eapply (timers_are_passing_snoc _ _ (of_ascii "Reconnected.") 2000);
      [set_solver|apply updateStatus_timers|by apply Hsame].
  - rewrite app_on_reconnect_failed_state. apply Hsame. by rewrite Hnone.
  - rewrite fire_state. destruct (timers p !! i) as [t|] eqn:Ht; [|done].
    assert (AppJs.timers_are_passing (set_timers (delete i) p)) as Hrest.
    { unfold AppJs.timers_are_passing. simpl. by apply Forall_delete. }
    simpl. destruct (status_el p) as [shown|]; [|done].
    destruct (callback t) as [text|]; [|done]. by destruct (decide (shown = text)).
Qed.

Lemma app_play_keeps_timers_passing pevs :
  ∀ p, AppJs.timers_are_passing p → AppJs.timers_are_passing (AppJs.play pevs p).
Proof.
  induction pevs as [|e pevs IH]; intros p Hp; [done|].
  rewrite app_play_cons. by apply IH, app_handle_keeps_timers_passing.
Qed.

(** Timers whose texts all differ from what is shown change nothing when
    they fire, in whatever order. *)
Lemma fires_keep_status fires :
  ∀ p, Forall (λ t, ∃ text, callback t = ClearIfUnchanged text ∧
                            Some text ≠ status_el p) (timers p) →
       status_el (AppJs.play (AppJs.TimerFires <$> fires) p) = status_el p.
Proof.
  induction fires as [|i fires IH]; intros p Hp; [done|].
  rewrite fmap_cons, app_play_cons. cbn [AppJs.handle].
  assert (status_el (page_of (fire i p)) = status_el p ∧
          timers (page_of (fire i p)) `sublist_of` timers p) as [Hs Ht].
  { rewrite fire_state. destruct (timers p !! i) as [t|] eqn:Hi; [|done].
    assert (t ∈ timers p) as Hin by (by eapply list_elem_of_lookup_2).
    eapply Forall_forall in Hp as (text & Hcb & Hne); [|done].
    simpl. rewrite Hcb. destruct (status_el p) as [shown|] eqn:Hshown.
    - destruct (decide (shown = text)) as [->|]; [done|].
      simpl. split; [done|apply sublist_delete].
    - simpl. split; [done|apply sublist_delete]. }
  rewrite IH, Hs; [done|].
  rewrite Hs. eapply Forall_forall. intros t Hin.
  eapply Forall_forall in Hp; [done|]. by eapply elem_of_sublist.
Qed.

(** The text a notice listener shows. *)
Lemma app_notice_state e p :
  AppJs.shows_notice e = true →
  ∃ text, (text ∉ AppJs.passing_texts) ∧ text ≠ [] ∧
          timers (page_of (AppJs.handle e p)) = timers p ∧
          status_el (page_of (AppJs.handle e p)) = (λ _, text) <$> status_el p.
Proof.
  assert (Hnone : ∀ text q,
            timers (page_of (AppJs.updateStatus text 0 q)) = timers q).
  { intros text q. destruct (updateStatus_timers text 0 q) as [-> _].
    rewrite andb_false_r. apply app_nil_r. }
  assert (Hshown : ∀ text q,
            status_el (page_of (AppJs.updateStatus text 0 q)) = (λ _, text) <$> status_el q).
  { intros text q. by destruct (updateStatus_timers text 0 q) as [_ ->]. }
  unfold AppJs.passing_texts.
  destruct e; try discriminate; intros _; simpl.
  - rewrite app_on_disconnect_state, Hnone, Hshown.
    eexists. split; [|split; [|done]]; [|done].
    rewrite !not_elem_of_cons. by repeat split; [..|apply not_elem_of_nil].
  - rewrite app_on_connect_error_state, Hnone, Hshown.
    eexists. split; [|split; [|done]]; [|done].
    rewrite !not_elem_of_cons. by repeat split; [..|apply not_elem_of_nil].
  - rewrite app_on_reconnect_attempt_state, Hnone, Hshown.
    eexists. split; [|split; [|done]]; [|done].
    rewrite !not_elem_of_cons. by repeat split; [..|apply not_elem_of_nil].
  - rewrite app_on_reconnect_failed_state, Hnone, Hshown.
    eexists. split; [|split; [|done]]; [|done].
    rewrite !not_elem_of_cons. by repeat split; [..|apply not_elem_of_nil].
Qed.

(** X12: under [app.js] a notice that is meant to stay does stay.  Start
    from a page without pending timers and let anything happen on it; then
    a disconnection, a connection error, a reconnection attempt or the
    failure to reconnect shows its text, which is not empty, and no timer
    that fires afterwards, in whatever order, changes the status line. *)
Theorem app_notice_outlives_timers (pevs : list AppJs.PageEvent) (p0 : Page)
    (e : AppJs.PageEvent) (fires : list nat) :
  timers p0 = [] →
  AppJs.shows_notice e = true →
  let p := page_of (AppJs.handle e (AppJs.play pevs p0)) in
  status_el (AppJs.play (AppJs.TimerFires <$> fires) p) = status_el p ∧
  ∃ text, text ≠ [] ∧ status_el p = (λ _, text) <$> status_el (AppJs.play pevs p0).
Proof.
  intros Hp0 He p. subst p.
  assert (AppJs.timers_are_passing (AppJs.play pevs p0)) as Hq.
  { apply app_play_keeps_timers_passing. unfold AppJs.timers_are_passing.
    by rewrite Hp0. }
  destruct (app_notice_state e (AppJs.play pevs p0) He)
    as (text & Hnew & Hne & Ht & Hs).
  split; [|by eauto].
  apply fires_keep_status. rewrite Ht, Hs.
  eapply Forall_impl; [exact Hq|]. intros t (text' & Hcb & Hin).
  exists text'. split; [done|].
  destruct (status_el (AppJs.play pevs p0)); simpl; [|done].
  intros [= ->]. done.
Qed.

Lemma app_notice_outlives_timers_witness :
  let p0 := {| messages_el := Some []; form_el := true;
               input_el := Some {| value := of_ascii "hi"; focused := false |};
               status_el := Some []; timers := []; emitted := []; scrolls := 0;
               console_calls := [] |} in
  let before := [AppJs.SocketConnect (JsString (of_ascii "a")); AppJs.FormSubmit] in
  let p := page_of (AppJs.handle (AppJs.SocketDisconnect JsNull) (AppJs.play before p0)) in
  status_el (AppJs.play (AppJs.TimerFires <$> [1; 0]%nat) p) = status_el p ∧
  ∃ text, text ≠ [] ∧ status_el p = (λ _, text) <$> status_el (AppJs.play before p0).
Proof.
  apply (app_notice_outlives_timers
           [AppJs.SocketConnect (JsString (of_ascii "a")); AppJs.FormSubmit]
           {| messages_el := Some []; form_el := true;
              input_el := Some {| value := of_ascii "hi"; focused := false |};
              status_el := Some []; timers := []; emitted := []; scrolls := 0;
              console_calls := [] |}
           (AppJs.SocketDisconnect JsNull) [1; 0]%nat); reflexivity.
Defined.

(** X13: under [submit.js] the notice of a disconnection does not stay.
    On a page with the form and the status element, a connection followed
    by a disconnection shows the notice and leaves the timer of the
    connection pending; when that timer fires the status line is emptied,
    notice included. *)
Theorem submit_notice_erased_by_timer (p : Page) (shown : js_string) :
  form_el p = true →
  status_el p = Some shown →
  let connected := page_of (SubmitJs.on_connect p) in
  let disconnected := page_of (SubmitJs.on_disconnect connected) in
  status_el disconnected = Some (of_ascii "Disconnected from server.") ∧
  timers disconnected = timers p ++ [{| callback := ClearAlways; delay := 2000 |}] ∧
  status_el (page_of (fire (length (timers p)) disconnected)) = Some [].
Proof.
  intros Hform Hs. cbv zeta.
  assert (Hconn : SubmitJs.on_connect p
                  = Done () (set_timers (λ ts, ts ++ [{| callback := ClearAlways;
                                                         delay := 2000 |}])
                               (set_status_el (λ _, Some (of_ascii "Connected.")) p))).
  { unfold SubmitJs.on_connect, SubmitJs.installed, set_status, setTimeout,
      mbind, Script_bind. by rewrite Hform, Hs. }
  rewrite Hconn. cbn [page_of].
  unfold SubmitJs.on_disconnect, SubmitJs.installed, set_status. simpl.
  rewrite Hform. simpl. split; [done|]. split; [done|].
  rewrite fire_state. simpl.
  rewrite lookup_app_r by done. by rewrite Nat.sub_diag.
Qed.

Lemma submit_notice_erased_by_timer_witness :
  let p := {| messages_el := None; form_el := true;
              input_el := Some {| value := []; focused := false |};
              status_el := Some []; timers := []; emitted := []; scrolls := 0;
              console_calls := [] |} in
  let disconnected := page_of (SubmitJs.on_disconnect (page_of (SubmitJs.on_connect p))) in
  status_el disconnected = Some (of_ascii "Disconnected from server.") ∧
  timers disconnected = timers p ++ [{| callback := ClearAlways; delay := 2000 |}] ∧
  status_el (page_of (fire (length (timers p)) disconnected)) = Some [].
Proof.
  apply (submit_notice_erased_by_timer
           {| messages_el := None; form_el := true;
              input_el := Some {| value := []; focused := false |};
              status_el := Some []; timers := []; emitted := []; scrolls := 0;
              console_calls := [] |} []); reflexivity.
Defined.

(** X14: the form listener of [submit.js], on a page with the form and
    the input, sends the value of the input exactly when it is not empty,
    untrimmed, and then clears the input.  It checks for no status element:
    when that is missing the payload is sent and the input cleared all the
    same, and then the listener throws, leaving no timer. *)
Theorem submit_sends_raw_value (p : Page) (input : Input) :
  form_el p = true →
  input_el p = Some input →
  let p' := page_of (SubmitJs.on_submit p) in
  emitted p' = emitted p ++ (if truthy (JsString (value input))
                             then [JsString (value input)] else []) ∧
  completes (SubmitJs.on_submit p)
  = negb (truthy (JsString (value input))) || present (status_el p) ∧
  (truthy (JsString (value input)) = true → value <$> input_el p' = Some []) ∧
  (status_el p = None → timers p' = timers p).
Proof.
  intros Hform Hin. cbv zeta.
  destruct (status_el p) as [shown|] eqn:Hs.
  - rewrite (submit_on_submit_state p input shown Hform Hin Hs).
    destruct (value input) as [|c v]; simpl; by rewrite ?app_nil_r.
  - unfold SubmitJs.on_submit, SubmitJs.installed. rewrite Hform.
    unfold get_input_value, mbind, Script_bind. rewrite Hin.
    destruct (value input) as [|c v]; simpl; [by rewrite app_nil_r|].
    unfold emit_new_message, set_input_value, set_status. simpl.
    rewrite Hin. simpl. by rewrite Hs.
Qed.

Lemma submit_sends_raw_value_witness :
  let p := {| messages_el := None; form_el := true;
              input_el := Some {| value := of_ascii " hi "; focused := true |};
              status_el := None; timers := []; emitted := []; scrolls := 0;
              console_calls := [] |} in
  emitted (page_of (SubmitJs.on_submit p)) = [JsString (of_ascii " hi ")] ∧
  completes (SubmitJs.on_submit p) = false.
Proof.
  destruct (submit_sends_raw_value
              {| messages_el := None; form_el := true;
                 input_el := Some {| value := of_ascii " hi "; focused := true |};
                 status_el := None; timers := []; emitted := []; scrolls := 0;
                 console_calls := [] |}
              {| value := of_ascii " hi "; focused := true |} eq_refl eq_refl)
    as (Hsent & Hthrows & _).
  split; [exact Hsent | exact Hthrows].
Defined.

